(** * corgi: a distributed lock over redis (redislock.go)

    A shallow embedding of the lock lifecycle of [redislock.go]: the
    provider configuration guarded by [doOnce], [TryLock], the renewal
    goroutine it spawns, [Unlock] and the [states.listeners] registry.

    The redis servers are outside the repository.  They are modelled as
    key/value maps with an expiry instant per key, and every command sent
    to them is answered under a network condition chosen by the
    environment (delivered, dropped, or executed with the reply lost).
    Time is an integer count of nanoseconds, as [time.Duration] is. *)

From stdpp Require Import gmap strings list fin_maps.

Local Open Scope Z_scope.

(** ** Durations and the package constants *)

Module time.
Definition Nanosecond : Z := 1.
Definition Second : Z := 1000000000 * Nanosecond.
End time.

(** [pingTimeout = time.Second * 3] *)
Definition pingTimeout : Z := time.Second * 3.
(** [lockTTL = time.Second * 10] *)
Definition lockTTL : Z := time.Second * 10.
(** [redisExecuteTimeout = time.Second * 3] *)
Definition redisExecuteTimeout : Z := time.Second * 3.
(** [renewalCheckInterval = time.Second * 1] *)
Definition renewalCheckInterval : Z := time.Second * 1.

(** ** context.Context, as far as the lock uses it: the deadline *)

Record Context := { Deadline : option Z }.

(** [context.Background()]: no deadline. *)
Definition Background : Context := {| Deadline := None |}.

(** [context.WithTimeout(parent, timeout)] called at instant [now]: the
    child expires at [now + timeout] unless the parent expires earlier. *)
Definition WithTimeout (parent : Context) (timeout now : Z) : Context :=
  match Deadline parent with
  | Some d => if d <? now + timeout then parent
              else {| Deadline := Some (now + timeout) |}
  | None => {| Deadline := Some (now + timeout) |}
  end.

(** The prologue shared by [TryLock] and [Unlock]:
    [if _, hasDeadline := ctx.Deadline(); !hasDeadline { ctx = cwt }]. *)
Definition boundCtx (ctx : Context) (now : Z) : Context :=
  match Deadline ctx with
  | Some _ => ctx
  | None => WithTimeout ctx redisExecuteTimeout now
  end.

(** ** The redis side *)

(** A stored key: its value and the instant it expires at. *)
Record Entry := { value : string; expireAt : Z }.

(** A key is visible at [now] while its expiry lies in the future. *)
Definition live (s : gmap string Entry) (now : Z) (key : string) : bool :=
  match s !! key with
  | Some e => now <? expireAt e
  | None => false
  end.

(** What happens to one command on the wire. *)
Inductive Net :=
| Delivered   (* executed, reply received *)
| Dropped     (* never executed, the client sees an error *)
| ReplyLost.  (* executed, the client sees an error *)

Definition Error := string.

(** [cmd.Result()]: the value and the error. *)
Record Reply (A : Type) := mkReply { val : A; err : option Error }.
Arguments mkReply {A} _ _.
Arguments val {A} _.
Arguments err {A} _.

Definition netError : Error := "i/o timeout"%string.

(** The reply the client sees for a command whose server-side answer is
    [v]: on an error go-redis returns the zero value [z]. *)
Definition answer {A} (net : Net) (z v : A) : Reply A :=
  match net with
  | Delivered => mkReply v None
  | Dropped | ReplyLost => mkReply z (Some netError)
  end.

(** The state the server is left in: a dropped command has no effect. *)
Definition effect (net : Net) (s s' : gmap string Entry) : gmap string Entry :=
  match net with
  | Dropped => s
  | Delivered | ReplyLost => s'
  end.

(** The three commands the lock needs from a server, after the store
    contract of the specification: conditional create with expiry,
    refresh of the expiry, delete.  The lock only ever passes
    [lockTTL], a positive duration, as [ttl]. *)
Module Redis.

(** [SET key value NX PX ttl]: creates the key only when it is not
    visible; says whether it did. *)
Definition setnx (now : Z) (key v : string) (ttl : Z)
    (s : gmap string Entry) : bool * gmap string Entry :=
  if live s now key then (false, s)
  else (true, <[key := {| value := v; expireAt := now + ttl |}]> s).

(** [EXPIRE key ttl]: moves the expiry of a visible key; says whether
    the key was there. *)
Definition expire (now : Z) (key : string) (ttl : Z)
    (s : gmap string Entry) : bool * gmap string Entry :=
  match s !! key with
  | Some e =>
      if now <? expireAt e
      then (true, <[key := {| value := value e; expireAt := now + ttl |}]> s)
      else (false, s)
  | None => (false, s)
  end.

(** [DEL key]: removes a visible key; the number of keys removed. *)
Definition del (now : Z) (key : string)
    (s : gmap string Entry) : Z * gmap string Entry :=
  if live s now key then (1, delete key s) else (0, s).

End Redis.

(** ** The driver and its one-time configuration *)

(** [redisLib.Options] and its siblings, reduced to the address. *)
Definition Options := string.

(** [*redisLib.Client]: made by [NewClient] or by [NewFailoverClient]. *)
Inductive Client :=
| NewClient (opt : Options)
| NewFailoverClient (opt : Options).

(** [*redisLib.ClusterClient]. *)
Inductive ClusterClient :=
| NewClusterClient (opt : Options).

(** [type redisDriver struct]; [None] is the nil pointer. *)
Record redisDriver := {
  client : option Client;
  clusterClient : option ClusterClient
}.

(** The package variables [lockDriver] and [doOnce]; [doOnce] holds
    whether the [sync.Once] has fired. *)
Record Package := {
  lockDriver : redisDriver;
  doOnce : bool
}.

(** [lockDriver = &redisDriver{}], [doOnce = &sync.Once{}]. *)
Definition initial : Package :=
  {| lockDriver := {| client := None; clusterClient := None |};
     doOnce := false |}.

(** A call either returns or panics; both leave a state behind. *)
Inductive Outcome (A : Type) :=
| Returns (a : A)
| Panics (e : Error) (a : A).
Arguments Returns {A} _.
Arguments Panics {A} _ _.

Definition after {A} (o : Outcome A) : A :=
  match o with Returns a | Panics _ a => a end.

(** [initClient]: [ping] is [rdb.Ping(ctx).Err()]. *)
Definition initClient (opt : Options) (ping : option Error)
    (d : redisDriver) : Outcome redisDriver :=
  match ping with
  | Some e => Panics e d
  | None => Returns {| client := Some (NewClient opt);
                       clusterClient := clusterClient d |}
  end.

(** [initClusterClient]. *)
Definition initClusterClient (opt : Options) (ping : option Error)
    (d : redisDriver) : Outcome redisDriver :=
  match ping with
  | Some e => Panics e d
  | None => Returns {| client := client d;
                       clusterClient := Some (NewClusterClient opt) |}
  end.

(** [initFailOverClient]: the failover client lands in [client]. *)
Definition initFailOverClient (opt : Options) (ping : option Error)
    (d : redisDriver) : Outcome redisDriver :=
  match ping with
  | Some e => Panics e d
  | None => Returns {| client := Some (NewFailoverClient opt);
                       clusterClient := clusterClient d |}
  end.

(** [doOnce.Do(f)]: [f] runs on the first call only, and the once counts
    as fired even when [f] panics. *)
Definition Do (f : redisDriver -> Outcome redisDriver) (p : Package)
    : Outcome Package :=
  if doOnce p then Returns p
  else match f (lockDriver p) with
       | Returns d => Returns {| lockDriver := d; doOnce := true |}
       | Panics e d => Panics e {| lockDriver := d; doOnce := true |}
       end.

Definition SetRedisProviderStandalone (opt : Options) (ping : option Error)
  : Package -> Outcome Package := Do (initClient opt ping).

Definition SetRedisProviderCluster (opt : Options) (ping : option Error)
  : Package -> Outcome Package := Do (initClusterClient opt ping).

Definition SetRedisProviderFailOver (opt : Options) (ping : option Error)
  : Package -> Outcome Package := Do (initFailOverClient opt ping).

(** [Wakeup] *)
Definition Wakeup (p : Package) : redisDriver := lockDriver p.

(** The three exported setters, as one type of call. *)
Inductive Setter :=
| Standalone (opt : Options) (ping : option Error)
| Cluster (opt : Options) (ping : option Error)
| FailOver (opt : Options) (ping : option Error).

Definition configure (c : Setter) : Package -> Outcome Package :=
  match c with
  | Standalone opt ping => SetRedisProviderStandalone opt ping
  | Cluster opt ping => SetRedisProviderCluster opt ping
  | FailOver opt ping => SetRedisProviderFailOver opt ping
  end.

(** The package after a sequence of setter calls (a panic recovered by
    the caller leaves the package as the panicking call left it). *)
Definition configured (cs : list Setter) : Package :=
  foldl (fun p c => after (configure c p)) initial cs.

(** What the once maintains: nothing is set before it fires, and the two
    pointers are never set together. *)
Definition wellConfigured (p : Package) : Prop :=
  (doOnce p = false ->
   client (lockDriver p) = None /\ clusterClient (lockDriver p) = None) /\
  (client (lockDriver p) = None \/ clusterClient (lockDriver p) = None).

(** Which server a command goes to. *)
Inductive Target := ViaClient | ViaCluster.

(** The one server a driver talks to, when exactly one pointer is set. *)
Definition bound (rd : redisDriver) : option Target :=
  match client rd, clusterClient rd with
  | Some _, None => Some ViaClient
  | None, Some _ => Some ViaCluster
  | _, _ => None
  end.

(** How many servers a driver talks to. *)
Definition clients (rd : redisDriver) : nat :=
  (match client rd with Some _ => 1 | None => 0 end +
   match clusterClient rd with Some _ => 1 | None => 0 end)%nat.

(** ** The process and the servers it can reach *)

Inductive Cmd :=
| SETNX (key v : string) (ttl : Z)
| EXPIRE (key : string) (ttl : Z)
| DEL (key : string).

Inductive Answer :=
| BoolCmd (r : Reply bool)
| IntCmd (r : Reply Z).

(** One command issued by the process, with the context it was issued
    under and the reply it got. *)
Record Call := {
  to : Target;
  under : Context;
  cmd : Cmd;
  got : Answer
}.

(** [standalone], [cluster]: the servers behind [client] and
    [clusterClient].  [listeners]: [states.listeners], a channel being
    the number it was made at.  [renewals]: the renewal goroutines still
    in their loop, by channel, with the key they renew.  [chans]: the
    channels made so far.  [cleanups]: the goroutines spawned by
    [Unlock] that have not run yet.  [blocked]: senders stuck on a
    channel nobody receives from.  [trace]: every command issued. *)
Record World := {
  standalone : gmap string Entry;
  cluster : gmap string Entry;
  listeners : gmap string nat;
  renewals : gmap nat string;
  chans : nat;
  cleanups : list string;
  blocked : list nat;
  trace : list Call
}.

Definition server (t : Target) (w : World) : gmap string Entry :=
  match t with ViaClient => standalone w | ViaCluster => cluster w end.

Definition setServer (t : Target) (s : gmap string Entry) (w : World) : World :=
  {| standalone := match t with ViaClient => s | ViaCluster => standalone w end;
     cluster := match t with ViaClient => cluster w | ViaCluster => s end;
     listeners := listeners w; renewals := renewals w; chans := chans w;
     cleanups := cleanups w; blocked := blocked w; trace := trace w |}.

Definition record (c : Call) (w : World) : World :=
  {| standalone := standalone w; cluster := cluster w;
     listeners := listeners w; renewals := renewals w; chans := chans w;
     cleanups := cleanups w; blocked := blocked w;
     trace := trace w ++ [c] |}.

(** [rd.client.SetNX(ctx, key, value, ttl).Result()] (or the cluster's). *)
Definition SetNX (t : Target) (ctx : Context) (key v : string) (ttl : Z)
    (now : Z) (net : Net) (w : World) : Reply bool * World :=
  let '(b, s') := Redis.setnx now key v ttl (server t w) in
  let r := answer net false b in
  (r, record {| to := t; under := ctx; cmd := SETNX key v ttl; got := BoolCmd r |}
        (setServer t (effect net (server t w) s') w)).

(** [rd.client.Expire(ctx, key, ttl).Result()] (or the cluster's). *)
Definition Expire (t : Target) (ctx : Context) (key : string) (ttl : Z)
    (now : Z) (net : Net) (w : World) : Reply bool * World :=
  let '(b, s') := Redis.expire now key ttl (server t w) in
  let r := answer net false b in
  (r, record {| to := t; under := ctx; cmd := EXPIRE key ttl; got := BoolCmd r |}
        (setServer t (effect net (server t w) s') w)).

(** [rd.client.Del(ctx, key).Result()] (or the cluster's). *)
Definition Del (t : Target) (ctx : Context) (key : string)
    (now : Z) (net : Net) (w : World) : Reply Z * World :=
  let '(n, s') := Redis.del now key (server t w) in
  let r := answer net 0 n in
  (r, record {| to := t; under := ctx; cmd := DEL key; got := IntCmd r |}
        (setServer t (effect net (server t w) s') w)).

(** [err != nil] *)
Definition failed {A} (r : Reply A) : bool :=
  match err r with Some _ => true | None => false end.

(** ** lockerValue *)

(** What [lockerValue] reads from the machine: [os.Hostname()], the
    address [GetLocalIP()] returns (defined in another file of the
    package), and the rendering of an instant by
    [Format("2006-01-02T15:04:05Z")]. *)
Record Host := {
  hostname : string;
  ip : string;
  format : Z -> string
}.

(** [fmt.Sprintf("lockedAt:%s@%s(%s)", time.Now().Format(...), hostname, ip)] *)
Definition lockerValue (h : Host) (now : Z) : string :=
  "lockedAt:" +:+ format h now +:+ "@" +:+ hostname h +:+ "(" +:+ ip h +:+ ")".

(** ** The renewal goroutine *)

(** The case a [select] of the loop takes: the ticker fired (at [now],
    with the network in condition [net]) or the cancel channel delivered. *)
Inductive Select :=
| TickerC (now : Z) (net : Target -> Net)
| CancelChan.

Inductive Ctl := Continue | BreakLOOP.

(** One [Expire] of the loop and its test [!redisOK || redisErr != nil];
    the context is [innerCtx := context.Background()]. *)
Definition refresh (t : Target) (key : string) (now : Z) (net : Target -> Net)
    (w : World) : bool * World :=
  let '(r, w') := Expire t Background key lockTTL now (net t) w in
  (negb (val r) || failed r, w').

(** The body of [case <-ticker.C:]. *)
Definition onTick (rd : redisDriver) (key : string) (now : Z)
    (net : Target -> Net) (w : World) : Ctl * World :=
  let '(brk, w1) :=
    match client rd with
    | Some _ => refresh ViaClient key now net w
    | None => (false, w)
    end in
  if brk then (BreakLOOP, w1)
  else
    let '(brk, w2) :=
      match clusterClient rd with
      | Some _ => refresh ViaCluster key now net w1
      | None => (false, w1)
      end in
    if brk then (BreakLOOP, w2) else (Continue, w2).

(** One pass through the [select]. *)
Definition iteration (rd : redisDriver) (key : string) (sel : Select)
    (w : World) : Ctl * World :=
  match sel with
  | TickerC now net => onTick rd key now net w
  | CancelChan => (BreakLOOP, w)
  end.

(** [LOOP: for { select { ... } }] run against the cases its selects take,
    in order.  [BreakLOOP]: the loop was left (what remains of the list is
    not consumed); [Continue]: it waits in [select]. *)
Fixpoint renewalLoop (rd : redisDriver) (key : string) (sels : list Select)
    (w : World) : Ctl * World :=
  match sels with
  | [] => (Continue, w)
  | sel :: sels' =>
      match iteration rd key sel w with
      | (BreakLOOP, w') => (BreakLOOP, w')
      | (Continue, w') => renewalLoop rd key sels' w'
      end
  end.

Definition setRenewals (g : gmap nat string) (w : World) : World :=
  {| standalone := standalone w; cluster := cluster w;
     listeners := listeners w; renewals := g; chans := chans w;
     cleanups := cleanups w; blocked := blocked w; trace := trace w |}.

(** The goroutine on channel [ch], scheduled for the cases [sels]: it
    leaves [renewals] when its loop is left. *)
Definition runRenewal (rd : redisDriver) (ch : nat) (sels : list Select)
    (w : World) : World :=
  match renewals w !! ch with
  | Some key =>
      match renewalLoop rd key sels w with
      | (BreakLOOP, w') => setRenewals (delete ch (renewals w')) w'
      | (Continue, w') => w'
      end
  | None => w
  end.

(** ** TryLock *)

(** [cancelChan := make(chan struct{})], [go func() {...}()] and
    [states.listeners[key] = cancelChan]. *)
Definition spawnRenewal (key : string) (w : World) : World :=
  let cancelChan := chans w in
  {| standalone := standalone w; cluster := cluster w;
     listeners := <[key := cancelChan]> (listeners w);
     renewals := <[cancelChan := key]> (renewals w);
     chans := S (chans w);
     cleanups := cleanups w; blocked := blocked w; trace := trace w |}.

Definition TryLock (rd : redisDriver) (ctx : Context) (key : string)
    (h : Host) (now : Z) (net : Target -> Net) (w : World) : bool * World :=
  match client rd, clusterClient rd with
  | None, None => (false, w)
  | _, _ =>
      let ctx := boundCtx ctx now in
      let r := mkReply false None in
      let '(r, w) :=
        match client rd with
        | Some _ =>
            SetNX ViaClient ctx key (lockerValue h now) lockTTL now (net ViaClient) w
        | None => (r, w)
        end in
      let '(r, w) :=
        match clusterClient rd with
        | Some _ =>
            SetNX ViaCluster ctx key (lockerValue h now) lockTTL now (net ViaCluster) w
        | None => (r, w)
        end in
      if failed r then (false, w)
      else if val r then (true, spawnRenewal key w)
      else (false, w)
  end.

(** ** Unlock *)

(** [go func() {...}()] at the end of [Unlock]. *)
Definition spawnCleanup (key : string) (w : World) : World :=
  {| standalone := standalone w; cluster := cluster w;
     listeners := listeners w; renewals := renewals w; chans := chans w;
     cleanups := cleanups w ++ [key]; blocked := blocked w; trace := trace w |}.

(** The body of that goroutine: take the channel out of the registry,
    then [ch <- struct{}{}] and [close(ch)].  The send is received by the
    renewal goroutine on [ch], which leaves its loop; when that goroutine
    is gone the sender stays blocked. *)
Definition cleanup (key : string) (w : World) : World :=
  match listeners w !! key with
  | Some ch =>
      {| standalone := standalone w; cluster := cluster w;
         listeners := delete key (listeners w);
         renewals := delete ch (renewals w);
         chans := chans w; cleanups := cleanups w;
         blocked := match renewals w !! ch with
                    | Some _ => blocked w
                    | None => blocked w ++ [ch]
                    end;
         trace := trace w |}
  | None => w
  end.

Definition Unlock (rd : redisDriver) (ctx : Context) (key : string)
    (now : Z) (net : Target -> Net) (w : World) : bool * World :=
  match client rd, clusterClient rd with
  | None, None => (false, w)
  | _, _ =>
      let ctx := boundCtx ctx now in
      match client rd with
      | Some _ =>
          let '(r, w) := Del ViaClient ctx key now (net ViaClient) w in
          ((0 <? val r) && negb (failed r), w)
      | None =>
          match clusterClient rd with
          | Some _ =>
              let '(r, w) := Del ViaCluster ctx key now (net ViaCluster) w in
              ((0 <? val r) && negb (failed r), w)
          | None => (false, spawnCleanup key w)
          end
      end
  end.

(** ** Runs of the process *)

(** The commands a step from [w] to [w'] issued. *)
Definition issued (w w' : World) : list Call :=
  drop (length (trace w)) (trace w').

(** One tick of the renewal goroutine on channel [ch]. *)
Record Tick := {
  chan : nat;
  at_ : Z;
  wire : Target -> Net
}.

(** Renewal goroutines ticking in some order while the caller is busy
    elsewhere. *)
Definition background (rd : redisDriver) (ticks : list Tick) (w : World) : World :=
  foldl (fun w k => runRenewal rd (chan k) [TickerC (at_ k) (wire k)] w) w ticks.

(** The deadline every command of a [TryLock] or [Unlock] called at [now]
    under [ctx] has to carry. *)
Definition deadlineFor (ctx : Context) (now : Z) : Z :=
  match Deadline ctx with
  | Some d => d
  | None => now + redisExecuteTimeout
  end.

(** A refresh that makes the loop stop. *)
Definition refreshFailed (c : Call) : bool :=
  match cmd c, got c with
  | EXPIRE _ _, BoolCmd r => negb (val r) || failed r
  | _, _ => false
  end.

(** The trace of a stretch of the loop: refreshes only, none of them
    failed except possibly the last one, after which the loop is left. *)
Definition refreshes (key : string) (ctl : Ctl) (stopped : Prop) (l : list Call) : Prop :=
  Forall (fun c => cmd c = EXPIRE key lockTTL /\ under c = Background) l /\
  match ctl with
  | Continue => Forall (fun c => refreshFailed c = false) l
  | BreakLOOP =>
      (stopped /\ Forall (fun c => refreshFailed c = false) l) \/
      (exists l' c, l = l' ++ [c] /\
                    Forall (fun c => refreshFailed c = false) l' /\
                    refreshFailed c = true)
  end.

(** Two servers that hold the same keys with the same expiry; the values
    may differ. *)
Definition sameKeys (s1 s2 : gmap string Entry) : Prop :=
  expireAt <$> s1 = expireAt <$> s2.

(** Two worlds that differ at most in the values their servers store
    (and in what was logged). *)
Record alike (w1 w2 : World) : Prop := {
  alike_standalone : sameKeys (standalone w1) (standalone w2);
  alike_cluster : sameKeys (cluster w1) (cluster w2);
  alike_listeners : listeners w1 = listeners w2;
  alike_renewals : renewals w1 = renewals w2;
  alike_chans : chans w1 = chans w2;
  alike_cleanups : cleanups w1 = cleanups w2;
  alike_blocked : blocked w1 = blocked w2
}.

(** What a caller or the scheduler does, and what can be seen of it. *)
Inductive Op :=
| OpTryLock (ctx : Context) (key : string) (now : Z) (net : Target -> Net)
| OpUnlock (ctx : Context) (key : string) (now : Z) (net : Target -> Net)
| OpRenew (key : string) (sel : Select).

Inductive Obs :=
| Locked (b : bool)
| Unlocked (b : bool)
| Renewed (c : Ctl).

Definition perform (rd : redisDriver) (h : Host) (o : Op) (w : World) : Obs * World :=
  match o with
  | OpTryLock ctx key now net =>
      let '(b, w') := TryLock rd ctx key h now net w in (Locked b, w')
  | OpUnlock ctx key now net =>
      let '(b, w') := Unlock rd ctx key now net w in (Unlocked b, w')
  | OpRenew key sel =>
      let '(c, w') := iteration rd key sel w in (Renewed c, w')
  end.

Fixpoint run (rd : redisDriver) (h : Host) (ops : list Op) (w : World)
    : list Obs * World :=
  match ops with
  | [] => ([], w)
  | o :: ops' =>
      let '(x, w') := perform rd h o w in
      let '(xs, w'') := run rd h ops' w' in
      (x :: xs, w'')
  end.

(** ** Schedules: callers, tickers and goroutines interleaved *)

(** [Asleep]: the connections it calls [Close] on, in order; the errors
    of [Close] are dropped, and neither [lockDriver] nor [doOnce] is
    assigned. *)
Definition Asleep (p : Package) : list Target :=
  match client (lockDriver p) with Some _ => [ViaClient] | None => [] end ++
  match clusterClient (lockDriver p) with Some _ => [ViaCluster] | None => [] end.

(** The setter's view of the server: what its ping answered. *)
Definition pingOf (c : Setter) : option Error :=
  match c with
  | Standalone _ ping | Cluster _ ping | FailOver _ ping => ping
  end.

(** The pointer a setter fills: [initClient] and [initFailOverClient]
    assign [lockDriver.client], [initClusterClient] assigns
    [lockDriver.clusterClient]. *)
Definition targetOf (c : Setter) : Target :=
  match c with
  | Standalone _ _ | FailOver _ _ => ViaClient
  | Cluster _ _ => ViaCluster
  end.

(** What [time.NewTicker(renewalCheckInterval)], made at [start], sends
    on [ticker.C]: its first [n] ticks, one per interval, each handled
    under the network [net]. *)
Fixpoint tickerC (start : Z) (n : nat) (net : Target -> Net) : list Select :=
  match n with
  | O => []
  | S n' =>
      TickerC (start + renewalCheckInterval) net ::
      tickerC (start + renewalCheckInterval) n' net
  end.

(** The ticks of [sels], as ticks of the goroutine on channel [ch]. *)
Fixpoint ticksOn (ch : nat) (sels : list Select) : list Tick :=
  match sels with
  | [] => []
  | TickerC now net :: sels' =>
      {| chan := ch; at_ := now; wire := net |} :: ticksOn ch sels'
  | CancelChan :: sels' => ticksOn ch sels'
  end.

(** Ticks that each reach server [t] and come before the expiry [exp]
    the previous refresh has set. *)
Fixpoint paced (t : Target) (exp : Z) (sels : list Select) : Prop :=
  match sels with
  | [] => True
  | TickerC now net :: sels' =>
      now < exp /\ net t = Delivered /\ paced t (now + lockTTL) sels'
  | CancelChan :: _ => False
  end.

(** The expiry such ticks leave behind. *)
Fixpoint expiryAfter (exp : Z) (sels : list Select) : Z :=
  match sels with
  | [] => exp
  | TickerC now _ :: sels' => expiryAfter (now + lockTTL) sels'
  | CancelChan :: sels' => expiryAfter exp sels'
  end.

(** One thing that happens in the process: a call of the API by some
    caller, a tick of the renewal goroutine on a channel, or a run of the
    cleanup goroutine of [Unlock]. *)
Inductive Action :=
| DoTryLock (ctx : Context) (key : string) (h : Host) (now : Z) (net : Target -> Net)
| DoUnlock (ctx : Context) (key : string) (now : Z) (net : Target -> Net)
| DoTick (ch : nat) (now : Z) (net : Target -> Net)
| DoCleanup (key : string).

(** What the action returns to its caller, if it has one, and the world
    it leaves. *)
Definition act (rd : redisDriver) (a : Action) (w : World) : option bool * World :=
  match a with
  | DoTryLock ctx key h now net =>
      let '(b, w') := TryLock rd ctx key h now net w in (Some b, w')
  | DoUnlock ctx key now net =>
      let '(b, w') := Unlock rd ctx key now net w in (Some b, w')
  | DoTick ch now net => (None, runRenewal rd ch [TickerC now net] w)
  | DoCleanup key => (None, cleanup key w)
  end.

Fixpoint acts (rd : redisDriver) (l : list Action) (w : World) : World :=
  match l with
  | [] => w
  | a :: l' => acts rd l' (snd (act rd a w))
  end.

(** The instant of an action; the cleanup goroutine reads no clock. *)
Definition when (a : Action) : option Z :=
  match a with
  | DoTryLock _ _ _ now _ | DoUnlock _ _ now _ | DoTick _ now _ => Some now
  | DoCleanup _ => None
  end.

(** The action happens in the window from [lo] up to [hi]. *)
Definition within (lo hi : Z) (a : Action) : Prop :=
  match when a with
  | Some now => lo <= now < hi
  | None => True
  end.

(** The action happens no later than [hi]. *)
Definition notAfter (hi : Z) (a : Action) : Prop :=
  match when a with
  | Some now => now <= hi
  | None => True
  end.

(** A [TryLock] of [key], or a tick: what competing acquirers and their
    renewal goroutines do. *)
Definition contends (key : string) (a : Action) : Prop :=
  match a with
  | DoTryLock _ key' _ _ _ => key' = key
  | DoTick _ _ _ => True
  | DoUnlock _ _ _ _ | DoCleanup _ => False
  end.

(** How many of the actions returned true. *)
Fixpoint wins (rd : redisDriver) (l : list Action) (w : World) : nat :=
  match l with
  | [] => 0%nat
  | a :: l' =>
      let '(r, w') := act rd a w in
      ((match r with Some true => 1 | _ => 0 end) + wins rd l' w')%nat
  end.

(** The registry and the goroutines fit together: every channel in use
    was made, no two keys share a channel, and the goroutine behind a
    registered channel renews the key it is registered under. *)
Record consistent (w : World) : Prop := {
  listeners_made : forall key ch,
    listeners w !! key = Some ch -> (ch < chans w)%nat;
  renewals_made : forall ch key,
    renewals w !! ch = Some key -> (ch < chans w)%nat;
  listeners_apart : forall key1 key2 ch,
    listeners w !! key1 = Some ch -> listeners w !! key2 = Some ch -> key1 = key2;
  renewals_match : forall key ch key',
    listeners w !! key = Some ch -> renewals w !! ch = Some key' -> key' = key
}.

(** No record of the server lives past [hi + lockTTL]. *)
Definition leaseBound (hi : Z) (s : gmap string Entry) : Prop :=
  forall k e, s !! k = Some e -> expireAt e <= hi + lockTTL.

(** The record of [key] lasts through the window that starts at [lo]. *)
Definition heldThrough (key : string) (lo : Z) (s : gmap string Entry) : Prop :=
  exists e, s !! key = Some e /\ lo + lockTTL <= expireAt e.

(** ** A small world to evaluate on *)

Module Sample.

Definition empty : World :=
  {| standalone := ∅; cluster := ∅; listeners := ∅; renewals := ∅;
     chans := 0%nat; cleanups := []; blocked := []; trace := [] |}.

(** The driver after [SetRedisProviderStandalone] with a server that
    answers the ping; a later setter changes nothing. *)
Definition single : redisDriver :=
  Wakeup (configured [Standalone "127.0.0.1:6379" None;
                      Cluster "127.0.0.1:7000" None]).

(** The driver after [SetRedisProviderCluster]. *)
Definition sharded : redisDriver :=
  Wakeup (configured [Cluster "127.0.0.1:7000" None]).

Definition host : Host :=
  {| hostname := "node-a"; ip := "10.0.0.1"; format := fun _ => "2024-01-01T00:00:00Z" |}.

Definition other : Host :=
  {| hostname := "node-b"; ip := "10.0.0.2"; format := fun _ => "2024-01-01T00:00:00Z" |}.

Definition ok : Target -> Net := fun _ => Delivered.
Definition down : Target -> Net := fun _ => Dropped.

(** The world after [TryLock "job"] succeeded at instant 0. *)
Definition held : World :=
  snd (TryLock single Background "job" host 0 ok empty).

(** A world in which the record of "job" was written by the process on
    [h], seen from a process that holds nothing. *)
Definition lockedBy (h : Host) : World :=
  {| standalone := <["job" := {| value := lockerValue h 0;
                                 expireAt := 0 + lockTTL |}]> ∅;
     cluster := ∅; listeners := ∅; renewals := ∅;
     chans := 0%nat; cleanups := []; blocked := []; trace := [] |}.

End Sample.

(** ** Basic facts about the commands *)

Section Commands.

Context (t : Target) (ctx : Context) (key : string) (now : Z) (net : Net).

Lemma SetNX_local v ttl w :
  let w' := snd (SetNX t ctx key v ttl now net w) in
  listeners w' = listeners w /\ renewals w' = renewals w /\
  chans w' = chans w /\ cleanups w' = cleanups w /\ blocked w' = blocked w.
Proof. unfold SetNX. destruct (Redis.setnx _ _ _ _ _); simpl; auto. Qed.

Lemma Expire_local ttl w :
  let w' := snd (Expire t ctx key ttl now net w) in
  listeners w' = listeners w /\ renewals w' = renewals w /\
  chans w' = chans w /\ cleanups w' = cleanups w /\ blocked w' = blocked w.
Proof. unfold Expire. destruct (Redis.expire _ _ _ _); simpl; auto. Qed.

Lemma Del_local w :
  let w' := snd (Del t ctx key now net w) in
  listeners w' = listeners w /\ renewals w' = renewals w /\
  chans w' = chans w /\ cleanups w' = cleanups w /\ blocked w' = blocked w.
Proof. unfold Del. destruct (Redis.del _ _ _); simpl; auto. Qed.

End Commands.

(** ** The configuration: at most one pointer is ever set *)

Lemma configure_wellConfigured c p :
  wellConfigured p -> wellConfigured (after (configure c p)).
Proof.
  intros Hp.
  destruct c as [opt ping|opt ping|opt ping]; simpl;
    unfold SetRedisProviderStandalone, SetRedisProviderCluster,
      SetRedisProviderFailOver, Do;
    (destruct (doOnce p) eqn:Hdone; simpl; [exact Hp|]);
    destruct Hp as [Hfresh _]; destruct (Hfresh Hdone) as [Hc Hcc];
    destruct ping as [e|]; simpl; split; try discriminate; auto.
Qed.

Lemma configured_wellConfigured cs : wellConfigured (configured cs).
Proof.
  unfold configured.
  assert (Hinit : wellConfigured initial) by (split; simpl; auto).
  revert Hinit. generalize initial.
  induction cs as [|c cs IH]; intros p Hp; simpl; [assumption|].
  apply IH, configure_wellConfigured, Hp.
Qed.

(** Whatever setters were called, a driver with a server talks to
    exactly one. *)
Lemma configured_bound cs :
  let rd := Wakeup (configured cs) in
  (client rd = None /\ clusterClient rd = None) \/ is_Some (bound rd).
Proof.
  destruct (configured_wellConfigured cs) as [_ Hone].
  unfold Wakeup, bound; simpl.
  destruct (client (lockDriver (configured cs))),
    (clusterClient (lockDriver (configured cs)));
    destruct Hone; try discriminate; eauto.
Qed.

(** ** The constants *)

(** C9: the lease lasts 10 seconds, the renewal ticker fires every
    second, and the tick interval is strictly shorter than the lease. *)
Theorem lease_outlasts_tick :
  lockTTL = 10 * time.Second /\
  renewalCheckInterval = 1 * time.Second /\
  time.Second = 1000000000 /\
  renewalCheckInterval < lockTTL.
Proof. unfold lockTTL, renewalCheckInterval, time.Second, time.Nanosecond. lia. Qed.

(** ** No server configured *)

(** C6: with both pointers nil, [TryLock] and [Unlock] return false and
    leave the world as it was; in particular no command is issued. *)
Theorem unconfigured_fails_closed ctx key h now net w :
  let rd := {| client := None; clusterClient := None |} in
  TryLock rd ctx key h now net w = (false, w) /\
  Unlock rd ctx key now net w = (false, w) /\
  issued w (snd (TryLock rd ctx key h now net w)) = [] /\
  issued w (snd (Unlock rd ctx key now net w)) = [].
Proof.
  simpl. repeat split; unfold issued; simpl; apply drop_all.
Qed.

(** ** Facts about TryLock *)

Lemma SetNX_trace t ctx key v ttl now net w :
  exists r, fst (SetNX t ctx key v ttl now net w) = r /\
  trace (snd (SetNX t ctx key v ttl now net w)) =
    trace w ++ [{| to := t; under := ctx; cmd := SETNX key v ttl; got := BoolCmd r |}].
Proof. unfold SetNX. destruct (Redis.setnx _ _ _ _ _); simpl; eauto. Qed.

Lemma Expire_trace t ctx key ttl now net w :
  exists r, fst (Expire t ctx key ttl now net w) = r /\
  trace (snd (Expire t ctx key ttl now net w)) =
    trace w ++ [{| to := t; under := ctx; cmd := EXPIRE key ttl; got := BoolCmd r |}].
Proof. unfold Expire. destruct (Redis.expire _ _ _ _); simpl; eauto. Qed.

Lemma Del_trace t ctx key now net w :
  exists r, fst (Del t ctx key now net w) = r /\
  trace (snd (Del t ctx key now net w)) =
    trace w ++ [{| to := t; under := ctx; cmd := DEL key; got := IntCmd r |}].
Proof. unfold Del. destruct (Redis.del _ _ _); simpl; eauto. Qed.

(** Takes the next command of the goal apart, keeping what it leaves
    untouched. *)
Ltac command :=
  match goal with
  | |- context [SetNX ?t ?ctx ?key ?v ?ttl ?now ?net ?w] =>
      let L := fresh "L" in
      pose proof (SetNX_local t ctx key now net v ttl w) as L;
      destruct (SetNX t ctx key v ttl now net w); simpl in L;
      destruct L as (? & ? & ? & ? & ?)
  | |- context [Del ?t ?ctx ?key ?now ?net ?w] =>
      let L := fresh "L" in
      pose proof (Del_local t ctx key now net w) as L;
      destruct (Del t ctx key now net w); simpl in L;
      destruct L as (? & ? & ? & ? & ?)
  end.

(** C10: a [TryLock] that returns false leaves the registry, the set of
    renewal goroutines and the channels made as they were. *)
Theorem TryLock_false_frame rd ctx key h now net w w' :
  TryLock rd ctx key h now net w = (false, w') ->
  listeners w' = listeners w /\ renewals w' = renewals w /\
  chans w' = chans w.
Proof.
  unfold TryLock.
  destruct (client rd) as [c|], (clusterClient rd) as [cc|]; repeat command;
    repeat match goal with
    | |- context [if ?b then _ else _] => destruct b
    end;
    intros Hret; inversion Hret; subst; repeat split; congruence.
Qed.

(** With one server configured, [TryLock], [Unlock] and a tick each
    issue one command, to that server. *)
Lemma TryLock_bound rd t ctx key h now net w :
  bound rd = Some t ->
  TryLock rd ctx key h now net w =
    let '(r, w1) := SetNX t (boundCtx ctx now) key (lockerValue h now)
                      lockTTL now (net t) w in
    if failed r then (false, w1)
    else if val r then (true, spawnRenewal key w1)
    else (false, w1).
Proof.
  unfold bound, TryLock.
  destruct (client rd), (clusterClient rd); intros Hb; inversion Hb; subst;
    destruct (SetNX _ _ _ _ _ _ _ _); reflexivity.
Qed.

Lemma Unlock_bound rd t ctx key now net w :
  bound rd = Some t ->
  Unlock rd ctx key now net w =
    let '(r, w1) := Del t (boundCtx ctx now) key now (net t) w in
    ((0 <? val r) && negb (failed r), w1).
Proof.
  unfold bound, Unlock.
  destruct (client rd), (clusterClient rd); intros Hb; inversion Hb; subst;
    reflexivity.
Qed.

Lemma onTick_bound rd t key now net w :
  bound rd = Some t ->
  onTick rd key now net w =
    let '(brk, w1) := refresh t key now net w in
    (if brk then BreakLOOP else Continue, w1).
Proof.
  unfold bound, onTick.
  destruct (client rd), (clusterClient rd); intros Hb; inversion Hb; subst;
    destruct (refresh _ _ _ _ _) as [[] ?]; reflexivity.
Qed.

Lemma server_setServer t s w : server t (setServer t s w) = s.
Proof. destruct t; reflexivity. Qed.

Lemma setServer_same t w : setServer t (server t w) w = w.
Proof. destruct t, w; reflexivity. Qed.

(** What [TryLock] does to a bound server, by what it found there. *)
Lemma TryLock_outcome rd t ctx key h now net w :
  bound rd = Some t ->
  let b := fst (TryLock rd ctx key h now net w) in
  let w' := snd (TryLock rd ctx key h now net w) in
  (live (server t w) now key = true ->
   b = false /\ standalone w' = standalone w /\ cluster w' = cluster w) /\
  (b = true ->
   live (server t w) now key = false /\
   server t w' =
     <[key := {| value := lockerValue h now; expireAt := now + lockTTL |}]>
       (server t w)).
Proof.
  intros Hb. rewrite (TryLock_bound rd t ctx key h now net w Hb).
  unfold SetNX, Redis.setnx.
  destruct (live (server t w) now key) eqn:Hlive; simpl.
  - split.
    + intros _.
      assert (Hsame : effect (net t) (server t w) (server t w) = server t w)
        by (destruct (net t); reflexivity).
      rewrite Hsame, setServer_same.
      destruct (net t); simpl; auto.
    + destruct (net t); simpl; discriminate.
  - split; [discriminate|].
    destruct (net t); simpl; try discriminate.
    intros _. split; [reflexivity|]. destruct t; reflexivity.
Qed.

(** C2: on a driver bound to one server, while a record for the key is
    visible there [TryLock] returns false, whatever the network does and
    whoever calls, and leaves both servers as they were; a [TryLock]
    that returns true found no visible record and wrote its own; and
    while that record's lease runs, a [TryLock] of the key by any process
    bound to the same server returns false. *)
Theorem TryLock_held rd t ctx key h now net w :
  bound rd = Some t ->
  let b := fst (TryLock rd ctx key h now net w) in
  let w' := snd (TryLock rd ctx key h now net w) in
  (live (server t w) now key = true ->
   b = false /\ standalone w' = standalone w /\ cluster w' = cluster w) /\
  (b = true ->
   live (server t w) now key = false /\
   server t w' =
     <[key := {| value := lockerValue h now; expireAt := now + lockTTL |}]>
       (server t w)) /\
  (b = true ->
   forall rd' ctx' h' now' net' u,
     bound rd' = Some t -> server t u = server t w' ->
     now' < now + lockTTL ->
     fst (TryLock rd' ctx' key h' now' net' u) = false).
Proof.
  intros Hb b w'.
  destruct (TryLock_outcome rd t ctx key h now net w Hb) as [Hheld Hnew].
  split; [exact Hheld|]. split; [exact Hnew|].
  intros Htrue rd' ctx' h' now' net' u Hb' Hu Hlt.
  destruct (Hnew Htrue) as [_ Hs].
  destruct (TryLock_outcome rd' t ctx' key h' now' net' u Hb') as [Hheld' _].
  apply Hheld'. unfold live. fold w' in Hs. rewrite Hu, Hs, lookup_insert_eq.
  simpl. apply Z.ltb_lt, Hlt.
Qed.

(** ** Facts about Unlock *)

Lemma Unlock_registry rd ctx key now net w :
  let w' := snd (Unlock rd ctx key now net w) in
  listeners w' = listeners w /\ renewals w' = renewals w /\
  chans w' = chans w /\ blocked w' = blocked w.
Proof.
  unfold Unlock.
  destruct (client rd) as [c|], (clusterClient rd) as [cc|]; repeat command;
    simpl; auto.
Qed.

(** With a server configured, [Unlock] returns before it reaches the
    goroutine that empties the registry. *)
Lemma Unlock_spawns_nothing rd ctx key now net w :
  client rd <> None \/ clusterClient rd <> None ->
  cleanups (snd (Unlock rd ctx key now net w)) = cleanups w.
Proof.
  unfold Unlock.
  destruct (client rd) as [c|], (clusterClient rd) as [cc|]; repeat command;
    simpl; auto; intros [Hc|Hc]; congruence.
Qed.

(** C1, on the code: after [TryLock "job"] succeeded, [Unlock "job"]
    deletes the record and returns true, yet the registry still maps the
    key to its channel, the renewal goroutine is still in its loop and no
    cleanup goroutine was spawned; running the cleanup would have removed
    both. *)
Theorem Unlock_leaves_registry :
  let w := Sample.held in
  let w' := snd (Unlock Sample.single Background "job" 1 Sample.ok w) in
  fst (Unlock Sample.single Background "job" 1 Sample.ok w) = true /\
  server ViaClient w' !! "job" = None /\
  listeners w !! "job" = Some 0%nat /\
  listeners w' !! "job" = Some 0%nat /\
  renewals w' !! 0%nat = Some "job" /\
  cleanups w' = [] /\
  listeners (cleanup "job" w') !! "job" = None /\
  renewals (cleanup "job" w') !! 0%nat = None.
Proof. vm_compute. repeat split; reflexivity. Qed.

Lemma issued_app w w' l : trace w' = trace w ++ l -> issued w w' = l.
Proof. unfold issued. intros ->. apply drop_app_length. Qed.

(** C5: on a driver bound to one server, [Unlock] issues one [DEL] and
    returns true exactly when its reply counts at least one key and
    carries no error.  The reply is the server's: delivered, it counts
    the one key removed when the key was visible and none otherwise; not
    delivered, it is an error.  So [Unlock] returns true exactly when
    the key was visible and the command was delivered, and then the
    record is gone.  When the key is not visible the count is 0,
    [Unlock] returns false, and the servers, the registry and the
    renewal goroutines are as before. *)
Theorem Unlock_reports_delete rd t ctx key now net w :
  bound rd = Some t ->
  let b := fst (Unlock rd ctx key now net w) in
  let w' := snd (Unlock rd ctx key now net w) in
  let visible := live (server t w) now key in
  (exists r,
     issued w w' = [{| to := t; under := boundCtx ctx now;
                       cmd := DEL key; got := IntCmd r |}] /\
     r = answer (net t) 0 (if visible then 1 else 0) /\
     (b = true <-> 1 <= val r /\ err r = None) /\
     (visible = false -> val r = 0)) /\
  (b = true <-> visible = true /\ net t = Delivered) /\
  server t w' =
    effect (net t) (server t w)
      (if visible then delete key (server t w) else server t w) /\
  (b = true -> server t w' !! key = None) /\
  (visible = false ->
   b = false /\ standalone w' = standalone w /\ cluster w' = cluster w /\
   listeners w' = listeners w /\ renewals w' = renewals w /\
   chans w' = chans w /\ cleanups w' = cleanups w).
Proof.
  intros Hb. rewrite (Unlock_bound rd t ctx key now net w Hb).
  assert (Hrs : forall c s, server t (record c (setServer t s w)) = s)
    by (intros; destruct t; reflexivity).
  unfold Del, Redis.del.
  destruct (live (server t w) now key) eqn:Hlive; simpl.
  - split; [|split; [|split; [apply Hrs|split; [|discriminate]]]].
    + eexists. split; [apply issued_app; reflexivity|].
      split; [reflexivity|]. split; [|discriminate].
      unfold failed. destruct (net t); simpl; split;
        try discriminate; try (intros [_ H]; discriminate); auto with lia.
    + unfold failed. destruct (net t); simpl; split;
        try discriminate; try (intros [_ H]; discriminate); auto.
    + rewrite Hrs. unfold failed.
      destruct (net t); simpl; try discriminate.
      intros _. apply lookup_delete_eq.
  - assert (Hsame : effect (net t) (server t w) (server t w) = server t w)
      by (destruct (net t); reflexivity).
    split; [|split; [|split; [apply Hrs|split]]].
    + eexists. split; [apply issued_app; reflexivity|].
      split; [reflexivity|].
      split; [|destruct (net t); reflexivity].
      unfold failed. destruct (net t); simpl; split;
        try discriminate; try (intros [H _]; lia); intros [_ H]; discriminate.
    + unfold failed. destruct (net t); simpl; split;
        try discriminate; intros [H _]; discriminate.
    + unfold failed. destruct (net t); simpl; discriminate.
    + intros _. clear Hsame Hrs. destruct (net t), t; simpl; auto 10.
Qed.

Lemma TryLock_false_frame_witness :
  let w' := snd (TryLock Sample.single Background "job" Sample.other 1
                   Sample.ok Sample.held) in
  TryLock Sample.single Background "job" Sample.other 1 Sample.ok Sample.held
    = (false, w') /\
  listeners w' = listeners Sample.held /\
  renewals w' = renewals Sample.held /\
  chans w' = chans Sample.held.
Proof.
  split; [vm_compute; reflexivity|].
  apply (TryLock_false_frame Sample.single Background "job" Sample.other 1
           Sample.ok Sample.held).
  vm_compute; reflexivity.
Defined.

Lemma TryLock_held_witness :
  bound Sample.single = Some ViaClient /\
  live (server ViaClient Sample.held) 1 "job" = true /\
  fst (TryLock Sample.single Background "job" Sample.other 1 Sample.down
         Sample.held) = false /\
  standalone (snd (TryLock Sample.single Background "job" Sample.other 1
                     Sample.down Sample.held)) = standalone Sample.held.
Proof.
  split; [reflexivity|]. split; [vm_compute; reflexivity|].
  pose proof (TryLock_held Sample.single ViaClient Background "job"
                Sample.other 1 Sample.down Sample.held eq_refl) as (H & _ & _).
  destruct H as (Hb & Hs & _); [vm_compute; reflexivity|].
  split; assumption.
Defined.

Lemma Unlock_reports_delete_witness :
  bound Sample.single = Some ViaClient /\
  live (server ViaClient Sample.held) (1 * time.Second) "job" = true /\
  fst (Unlock Sample.single Background "job" (1 * time.Second) Sample.ok
         Sample.held) = true /\
  server ViaClient
    (snd (Unlock Sample.single Background "job" (1 * time.Second) Sample.ok
            Sample.held)) !! "job" = None /\
  live (server ViaClient Sample.empty) 7 "job" = false /\
  fst (Unlock Sample.single Background "job" 7 Sample.ok Sample.empty) = false /\
  listeners (snd (Unlock Sample.single Background "job" 7 Sample.ok
                    Sample.empty)) = listeners Sample.empty.
Proof.
  assert (Hlive : live (server ViaClient Sample.held) (1 * time.Second) "job"
                  = true) by (vm_compute; reflexivity).
  split; [reflexivity|]. split; [exact Hlive|].
  pose proof (Unlock_reports_delete Sample.single ViaClient Background "job"
                (1 * time.Second) Sample.ok Sample.held eq_refl)
    as (_ & Htrue & _ & Hgone & _).
  pose proof (proj2 Htrue (conj Hlive eq_refl)) as Hb.
  split; [exact Hb|]. split; [exact (Hgone Hb)|].
  split; [reflexivity|].
  pose proof (Unlock_reports_delete Sample.single ViaClient Background "job"
                7 Sample.ok Sample.empty eq_refl) as (_ & _ & _ & _ & H).
  destruct H as (Hf & _ & _ & Hl & _); [reflexivity|].
  split; assumption.
Defined.

(** ** The renewal loop *)

Lemma renewalLoop_app rd key sels1 sels2 w :
  renewalLoop rd key (sels1 ++ sels2) w =
    match renewalLoop rd key sels1 w with
    | (BreakLOOP, w') => (BreakLOOP, w')
    | (Continue, w') => renewalLoop rd key sels2 w'
    end.
Proof.
  revert w. induction sels1 as [|sel sels1 IH]; intros w; simpl; [reflexivity|].
  destruct (iteration rd key sel w) as [[] w']; [apply IH|reflexivity].
Qed.

(** What one refresh leaves in the trace: an [EXPIRE] of the key for
    [lockTTL] under the background context, failed exactly when the
    loop is told to stop. *)
Lemma refresh_trace t key now net w :
  exists c,
    trace (snd (refresh t key now net w)) = trace w ++ [c] /\
    refreshFailed c = fst (refresh t key now net w) /\
    to c = t /\ cmd c = EXPIRE key lockTTL /\ under c = Background.
Proof.
  unfold refresh, Expire.
  destruct (Redis.expire now key lockTTL (server t w)) as [b s'].
  eexists. simpl. split; [reflexivity|]. simpl. auto.
Qed.

Lemma onTick_trace rd key now net w :
  exists l,
    trace (snd (onTick rd key now net w)) = trace w ++ l /\
    refreshes key (fst (onTick rd key now net w)) False l.
Proof.
  unfold onTick, refreshes.
  destruct (client rd) as [c|], (clusterClient rd) as [cc|].
  - destruct (refresh_trace ViaClient key now net w) as (c1 & T1 & F1 & _ & C1 & U1).
    destruct (refresh ViaClient key now net w) as [[] w1]; simpl in *.
    + exists [c1]. split; [assumption|]. split; [repeat constructor; assumption|].
      right. exists [], c1. repeat split; [constructor|assumption].
    + destruct (refresh_trace ViaCluster key now net w1) as (c2 & T2 & F2 & _ & C2 & U2).
      destruct (refresh ViaCluster key now net w1) as [[] w2]; simpl in *;
        (exists [c1; c2]; split; [rewrite T2, T1, <- app_assoc; reflexivity|];
         split; [repeat constructor; assumption|]).
      * right. exists [c1], c2. repeat split; [repeat constructor|]; assumption.
      * repeat constructor; assumption.
  - destruct (refresh_trace ViaClient key now net w) as (c1 & T1 & F1 & _ & C1 & U1).
    destruct (refresh ViaClient key now net w) as [[] w1]; simpl in *;
      (exists [c1]; split; [assumption|]; split; [repeat constructor; assumption|]).
    + right. exists [], c1. repeat split; [constructor|assumption].
    + repeat constructor; assumption.
  - destruct (refresh_trace ViaCluster key now net w) as (c2 & T2 & F2 & _ & C2 & U2).
    destruct (refresh ViaCluster key now net w) as [[] w2]; simpl in *;
      (exists [c2]; split; [assumption|]; split; [repeat constructor; assumption|]).
    + right. exists [], c2. repeat split; [constructor|assumption].
    + repeat constructor; assumption.
  - exists []. simpl. rewrite app_nil_r. repeat constructor.
Qed.

Lemma renewalLoop_trace rd key sels w :
  exists l,
    trace (snd (renewalLoop rd key sels w)) = trace w ++ l /\
    refreshes key (fst (renewalLoop rd key sels w)) (CancelChan ∈ sels) l.
Proof.
  revert w. induction sels as [|sel sels IH]; intros w; simpl.
  - exists []. rewrite app_nil_r. repeat constructor.
  - destruct sel as [now net|]; simpl.
    + destruct (onTick_trace rd key now net w) as (l1 & T1 & A1 & R1).
      destruct (onTick rd key now net w) as [[] w1]; simpl in *.
      * destruct (IH w1) as (l2 & T2 & A2 & R2).
        exists (l1 ++ l2). split; [rewrite T2, T1, <- app_assoc; reflexivity|].
        split; [apply Forall_app; split; assumption|].
        destruct (fst (renewalLoop rd key sels w1)).
        -- apply Forall_app; split; assumption.
        -- destruct R2 as [[Hin Hok]|(l' & c & -> & Hok & Hc)].
           ++ left. split; [apply list_elem_of_further, Hin|
                            apply Forall_app; split; assumption].
           ++ right. exists (l1 ++ l'), c. rewrite app_assoc.
              repeat split; [apply Forall_app; split|]; assumption.
      * exists l1. split; [assumption|]. split; [assumption|].
        destruct R1 as [[[] _]|R1]. right. exact R1.
    + exists []. rewrite app_nil_r. split; [reflexivity|].
      split; [constructor|]. simpl.
      left. split; [apply list_elem_of_here|constructor].
Qed.

(** C4: the loop leaves at a cancel signal without issuing anything, in
    whatever state it is and whatever cases would follow; once left it
    consumes nothing more; and the commands it issues are refreshes of
    which none failed, except the last one when the loop was left without
    a cancel: a refresh answered false or with an error is the last
    command of the loop. *)
Theorem renewalLoop_stops rd key w :
  (forall sels1 sels2,
     renewalLoop rd key (sels1 ++ CancelChan :: sels2) w =
       (BreakLOOP, snd (renewalLoop rd key sels1 w))) /\
  (forall sels1 sels2,
     fst (renewalLoop rd key sels1 w) = BreakLOOP ->
     renewalLoop rd key (sels1 ++ sels2) w = renewalLoop rd key sels1 w) /\
  (forall sels,
     exists l,
       issued w (snd (renewalLoop rd key sels w)) = l /\
       Forall (fun c => cmd c = EXPIRE key lockTTL) l /\
       (forall l1 c l2,
          l = l1 ++ c :: l2 -> refreshFailed c = true ->
          l2 = [] /\ fst (renewalLoop rd key sels w) = BreakLOOP) /\
       (fst (renewalLoop rd key sels w) = BreakLOOP ->
        CancelChan ∈ sels \/
        exists c, last l = Some c /\ refreshFailed c = true)).
Proof.
  split; [|split].
  - intros sels1 sels2. rewrite renewalLoop_app.
    destruct (renewalLoop rd key sels1 w) as [[] w']; reflexivity.
  - intros sels1 sels2 Hbrk. rewrite renewalLoop_app.
    destruct (renewalLoop rd key sels1 w) as [[] w']; simpl in *;
      [discriminate|reflexivity].
  - intros sels.
    destruct (renewalLoop_trace rd key sels w) as (l & T & A & R).
    exists l. split; [apply issued_app, T|].
    split.
    { eapply Forall_impl; [exact A|]. simpl. intros c [Hc _]. exact Hc. }
    split.
    + intros l1 c l2 -> Hc.
      destruct (fst (renewalLoop rd key sels w)).
      * apply Forall_app in R as [_ R]. inversion R; subst. congruence.
      * destruct R as [[_ R]|(l' & c' & E & Hok & Hc')].
        -- apply Forall_app in R as [_ R]. inversion R; subst. congruence.
        -- split; [|reflexivity].
           destruct l2 as [|c2 l2] using rev_ind; [reflexivity|].
           rewrite app_comm_cons, app_assoc in E.
           apply app_inj_tail in E as [<- _].
           apply Forall_app in Hok as [_ Hok]. inversion Hok; subst. congruence.
    + intros Hbrk. rewrite Hbrk in R.
      destruct R as [[Hin _]|(l' & c & -> & _ & Hc)]; [left; assumption|].
      right. exists c. split; [apply last_snoc|assumption].
Qed.

Lemma renewalLoop_stops_witness :
  let sels1 := [TickerC (1 * time.Second) Sample.ok;
                TickerC (2 * time.Second) Sample.down] in
  let sels2 := [TickerC (3 * time.Second) Sample.ok] in
  fst (renewalLoop Sample.single "job" sels1 Sample.held) = BreakLOOP /\
  renewalLoop Sample.single "job" (sels1 ++ sels2) Sample.held =
    renewalLoop Sample.single "job" sels1 Sample.held /\
  length (issued Sample.held
            (snd (renewalLoop Sample.single "job" (sels1 ++ sels2) Sample.held)))
    = 2%nat.
Proof.
  intros sels1 sels2.
  assert (Hbrk : fst (renewalLoop Sample.single "job" sels1 Sample.held) = BreakLOOP)
    by (vm_compute; reflexivity).
  split; [exact Hbrk|].
  destruct (renewalLoop_stops Sample.single "job" Sample.held) as (_ & Hleft & _).
  split; [apply Hleft, Hbrk|].
  rewrite (Hleft sels1 sels2 Hbrk). vm_compute. reflexivity.
Defined.

(** ** Deadlines *)

Lemma boundCtx_deadline ctx now :
  Deadline (boundCtx ctx now) = Some (deadlineFor ctx now).
Proof.
  unfold boundCtx, deadlineFor, WithTimeout.
  destruct (Deadline ctx) eqn:E; [assumption|reflexivity].
Qed.

Lemma TryLock_trace rd ctx key h now net w :
  exists l,
    trace (snd (TryLock rd ctx key h now net w)) = trace w ++ l /\
    length l = clients rd /\
    Forall (fun c => under c = boundCtx ctx now /\
                     cmd c = SETNX key (lockerValue h now) lockTTL) l.
Proof.
  unfold TryLock, clients.
  destruct (client rd) as [c|], (clusterClient rd) as [cc|].
  - destruct (SetNX_trace ViaClient (boundCtx ctx now) key (lockerValue h now)
                lockTTL now (net ViaClient) w) as (r1 & _ & T1).
    destruct (SetNX ViaClient _ _ _ _ _ _ _) as [r1' w1]; simpl in T1.
    destruct (SetNX_trace ViaCluster (boundCtx ctx now) key (lockerValue h now)
                lockTTL now (net ViaCluster) w1) as (r2 & _ & T2).
    destruct (SetNX ViaCluster _ _ _ _ _ _ _) as [r2' w2]; simpl in T2.
    eexists [_; _]. split.
    { destruct (failed r2'); [|destruct (val r2')]; simpl;
        rewrite T2, T1, <- app_assoc; reflexivity. }
    split; [reflexivity|repeat constructor].
  - destruct (SetNX_trace ViaClient (boundCtx ctx now) key (lockerValue h now)
                lockTTL now (net ViaClient) w) as (r1 & _ & T1).
    destruct (SetNX ViaClient _ _ _ _ _ _ _) as [r1' w1]; simpl in T1.
    eexists [_]. split.
    { destruct (failed r1'); [|destruct (val r1')]; simpl; rewrite T1; reflexivity. }
    split; [reflexivity|repeat constructor].
  - destruct (SetNX_trace ViaCluster (boundCtx ctx now) key (lockerValue h now)
                lockTTL now (net ViaCluster) w) as (r2 & _ & T2).
    destruct (SetNX ViaCluster _ _ _ _ _ _ _) as [r2' w2]; simpl in T2.
    eexists [_]. split.
    { destruct (failed r2'); [|destruct (val r2')]; simpl; rewrite T2; reflexivity. }
    split; [reflexivity|repeat constructor].
  - exists []. simpl. rewrite app_nil_r. repeat constructor.
Qed.

Lemma Unlock_trace rd ctx key now net w :
  exists l,
    trace (snd (Unlock rd ctx key now net w)) = trace w ++ l /\
    length l = Nat.min 1 (clients rd) /\
    Forall (fun c => under c = boundCtx ctx now /\ cmd c = DEL key) l.
Proof.
  unfold Unlock, clients.
  destruct (client rd) as [c|], (clusterClient rd) as [cc|].
  - destruct (Del_trace ViaClient (boundCtx ctx now) key now (net ViaClient) w)
      as (r1 & _ & T1).
    destruct (Del ViaClient _ _ _ _ _) as [r1' w1]; simpl in *.
    eexists [_]. split; [exact T1|]. split; [reflexivity|repeat constructor].
  - destruct (Del_trace ViaClient (boundCtx ctx now) key now (net ViaClient) w)
      as (r1 & _ & T1).
    destruct (Del ViaClient _ _ _ _ _) as [r1' w1]; simpl in *.
    eexists [_]. split; [exact T1|]. split; [reflexivity|repeat constructor].
  - destruct (Del_trace ViaCluster (boundCtx ctx now) key now (net ViaCluster) w)
      as (r2 & _ & T2).
    destruct (Del ViaCluster _ _ _ _ _) as [r2' w2]; simpl in *.
    eexists [_]. split; [exact T2|]. split; [reflexivity|repeat constructor].
  - exists []. simpl. rewrite app_nil_r. repeat constructor.
Qed.

(** C7, on the code: the claim wants every store call of the lifecycle
    bounded by a deadline, the refreshes of the renewal goroutine
    included.  After [TryLock "job"] succeeded, the first tick of the
    goroutine issues its [EXPIRE] under a context with no deadline:
    [redisExecuteTimeout], which [TryLock] and [Unlock] apply to their
    own commands, is not applied in the loop. *)
Theorem refresh_without_deadline :
  exists c,
    issued Sample.held
      (snd (renewalLoop Sample.single "job"
              [TickerC (1 * time.Second) Sample.ok] Sample.held)) = [c] /\
    cmd c = EXPIRE "job" lockTTL /\
    Deadline (under c) = None.
Proof. eexists. vm_compute. repeat split; reflexivity. Qed.

(** The deadlines on the code, path by path: every command [TryLock]
    and [Unlock] issue (one per configured server for [TryLock], one for
    [Unlock]) carries the caller's deadline when the caller's context has
    one, and otherwise the instant 3 seconds after the call; every
    refresh of the renewal loop is issued under [context.Background()]. *)
Lemma calls_deadline rd ctx key h now net w :
  let bounded c :=
    Deadline (under c) =
      Some (match Deadline ctx with
            | Some d => d
            | None => now + 3 * time.Second
            end) in
  (length (issued w (snd (TryLock rd ctx key h now net w))) = clients rd /\
   Forall bounded (issued w (snd (TryLock rd ctx key h now net w)))) /\
  (length (issued w (snd (Unlock rd ctx key now net w))) = Nat.min 1 (clients rd) /\
   Forall bounded (issued w (snd (Unlock rd ctx key now net w)))) /\
  (forall sels,
     Forall (fun c => under c = Background /\ Deadline (under c) = None)
       (issued w (snd (renewalLoop rd key sels w)))).
Proof.
  intros bounded.
  assert (Hb : forall c, under c = boundCtx ctx now -> bounded c).
  { intros c Hc. unfold bounded. rewrite Hc, boundCtx_deadline.
    unfold deadlineFor, redisExecuteTimeout. destruct (Deadline ctx); f_equal; lia. }
  split; [|split].
  - destruct (TryLock_trace rd ctx key h now net w) as (l & T & Hlen & Hall).
    rewrite (issued_app _ _ _ T). split; [exact Hlen|].
    eapply Forall_impl; [exact Hall|]. intros c [Hc _]. apply Hb, Hc.
  - destruct (Unlock_trace rd ctx key now net w) as (l & T & Hlen & Hall).
    rewrite (issued_app _ _ _ T). split; [exact Hlen|].
    eapply Forall_impl; [exact Hall|]. intros c [Hc _]. apply Hb, Hc.
  - intros sels.
    destruct (renewalLoop_trace rd key sels w) as (l & T & Hall & _).
    rewrite (issued_app _ _ _ T).
    eapply Forall_impl; [exact Hall|]. intros c [_ Hc].
    split; [exact Hc|]. rewrite Hc. reflexivity.
Qed.

(** ** What the servers hold after a command *)

Lemma SetNX_server t ctx key v ttl now net w :
  server t (snd (SetNX t ctx key v ttl now net w)) =
    effect net (server t w) (snd (Redis.setnx now key v ttl (server t w))).
Proof.
  unfold SetNX. destruct (Redis.setnx _ _ _ _ _); simpl. destruct t; reflexivity.
Qed.

Lemma Expire_server t ctx key ttl now net w :
  server t (snd (Expire t ctx key ttl now net w)) =
    effect net (server t w) (snd (Redis.expire now key ttl (server t w))).
Proof.
  unfold Expire. destruct (Redis.expire _ _ _ _); simpl. destruct t; reflexivity.
Qed.

Lemma Del_server t ctx key now net w :
  server t (snd (Del t ctx key now net w)) =
    effect net (server t w) (snd (Redis.del now key (server t w))).
Proof.
  unfold Del. destruct (Redis.del _ _ _); simpl. destruct t; reflexivity.
Qed.

(** [EXPIRE] creates no key, removes none, keeps every value, and moves
    an expiry only to [now + ttl]. *)
Lemma expire_lookup now key ttl s k :
  match s !! k with
  | None => snd (Redis.expire now key ttl s) !! k = None
  | Some e =>
      exists e', snd (Redis.expire now key ttl s) !! k = Some e' /\
                 value e' = value e /\
                 (expireAt e' = expireAt e \/ expireAt e' = now + ttl)
  end.
Proof.
  unfold Redis.expire.
  destruct (s !! key) as [e0|] eqn:Hkey.
  - destruct (now <? expireAt e0); simpl.
    + destruct (decide (key = k)) as [->|Hne].
      * rewrite Hkey, lookup_insert_eq. eauto.
      * rewrite lookup_insert_ne by assumption. destruct (s !! k); eauto.
    + destruct (s !! k); eauto.
  - simpl. destruct (s !! k); eauto.
Qed.

Section Background.

Context (rd : redisDriver) (t : Target) (Hb : bound rd = Some t).

(** A property of the server that no [EXPIRE] issued at an instant in
    [T] can break. *)
Context (T : Z -> Prop) (Q : gmap string Entry -> Prop).
Context (HQ : forall s key now, T now -> Q s ->
                Q (snd (Redis.expire now key lockTTL s))).

Lemma refresh_keeps key now net w :
  T now -> Q (server t w) -> Q (server t (snd (refresh t key now net w))).
Proof.
  intros Hlo Hq. unfold refresh.
  pose proof (Expire_server t Background key lockTTL now (net t) w) as E.
  destruct (Expire t Background key lockTTL now (net t) w) as [r w']; simpl in *.
  rewrite E. destruct (net t); simpl; auto.
Qed.

Lemma runRenewal_keeps ch now net w :
  T now -> Q (server t w) ->
  Q (server t (runRenewal rd ch [TickerC now net] w)).
Proof.
  intros Hlo Hq. unfold runRenewal.
  destruct (renewals w !! ch) as [key|]; [|assumption].
  simpl. rewrite (onTick_bound rd t key now net w Hb).
  pose proof (refresh_keeps key now net w Hlo Hq) as Hr.
  destruct (refresh t key now net w) as [[] w']; simpl in *;
    [destruct t|]; assumption.
Qed.

Lemma background_keeps ticks w :
  Forall (fun k => T (at_ k)) ticks ->
  Q (server t w) -> Q (server t (background rd ticks w)).
Proof.
  unfold background. revert w.
  induction ticks as [|k ticks IH]; intros w Hall Hq; simpl; [assumption|].
  inversion Hall; subst. apply IH; [assumption|].
  apply runRenewal_keeps; assumption.
Qed.

End Background.

(** ** Acquire, release, acquire again *)

(** A lease granted at [t1] is still there, with at least its first
    term, whatever refreshes follow. *)
Lemma lease_kept t1 key s now key' :
  t1 <= now ->
  (exists e, s !! key = Some e /\ t1 + lockTTL <= expireAt e) ->
  exists e, snd (Redis.expire now key' lockTTL s) !! key = Some e /\
            t1 + lockTTL <= expireAt e.
Proof.
  intros Hlo (e & He & Hexp).
  pose proof (expire_lookup now key' lockTTL s key) as H. rewrite He in H.
  destruct H as (e' & He' & _ & [Hsame|Hnew]); exists e'; split; auto; lia.
Qed.

Lemma absent_kept key s now key' :
  s !! key = None -> snd (Redis.expire now key' lockTTL s) !! key = None.
Proof.
  intros Hs. pose proof (expire_lookup now key' lockTTL s key) as H.
  rewrite Hs in H. exact H.
Qed.

(** A delivered [Unlock] of a visible key returns true and removes it. *)
Lemma Unlock_live rd t ctx key now net w :
  bound rd = Some t -> net t = Delivered ->
  live (server t w) now key = true ->
  fst (Unlock rd ctx key now net w) = true /\
  server t (snd (Unlock rd ctx key now net w)) !! key = None.
Proof.
  intros Hb Hnet Hlive. rewrite (Unlock_bound rd t ctx key now net w Hb).
  pose proof (Del_server t (boundCtx ctx now) key now (net t) w) as Hs.
  unfold Del in *. unfold Redis.del in *. rewrite Hlive, Hnet in *. simpl in *.
  split; [reflexivity|]. rewrite Hs. apply lookup_delete_eq.
Qed.

(** A delivered [TryLock] of an absent key returns true. *)
Lemma TryLock_absent rd t ctx key h now net w :
  bound rd = Some t -> net t = Delivered ->
  server t w !! key = None ->
  fst (TryLock rd ctx key h now net w) = true.
Proof.
  intros Hb Hnet Habs. rewrite (TryLock_bound rd t ctx key h now net w Hb).
  unfold SetNX, Redis.setnx, live. rewrite Habs, Hnet. reflexivity.
Qed.

(** ** The stored value is never read *)

Lemma sameKeys_lookup s1 s2 key :
  sameKeys s1 s2 -> expireAt <$> (s1 !! key) = expireAt <$> (s2 !! key).
Proof. unfold sameKeys. intros H. rewrite <- !lookup_fmap, H. reflexivity. Qed.

Lemma sameKeys_live s1 s2 now key :
  sameKeys s1 s2 -> live s1 now key = live s2 now key.
Proof.
  intros H. unfold live. apply (sameKeys_lookup s1 s2 key) in H.
  destruct (s1 !! key), (s2 !! key); simpl in H; inversion H; congruence.
Qed.

Lemma sameKeys_insert s1 s2 key e1 e2 :
  sameKeys s1 s2 -> expireAt e1 = expireAt e2 ->
  sameKeys (<[key := e1]> s1) (<[key := e2]> s2).
Proof.
  unfold sameKeys. intros H He. rewrite !fmap_insert, H, He. reflexivity.
Qed.

Lemma sameKeys_delete s1 s2 key :
  sameKeys s1 s2 -> sameKeys (delete key s1) (delete key s2).
Proof. unfold sameKeys. intros H. rewrite !fmap_delete, H. reflexivity. Qed.

Lemma sameKeys_effect net s1 s2 s1' s2' :
  sameKeys s1 s2 -> sameKeys s1' s2' ->
  sameKeys (effect net s1 s1') (effect net s2 s2').
Proof. destruct net; simpl; auto. Qed.

Lemma sameKeys_setnx s1 s2 now key v1 v2 ttl :
  sameKeys s1 s2 ->
  fst (Redis.setnx now key v1 ttl s1) = fst (Redis.setnx now key v2 ttl s2) /\
  sameKeys (snd (Redis.setnx now key v1 ttl s1))
           (snd (Redis.setnx now key v2 ttl s2)).
Proof.
  intros H. unfold Redis.setnx. rewrite (sameKeys_live s1 s2 now key H).
  destruct (live s2 now key); simpl; split; auto.
  apply sameKeys_insert; auto.
Qed.

Lemma sameKeys_expire s1 s2 now key ttl :
  sameKeys s1 s2 ->
  fst (Redis.expire now key ttl s1) = fst (Redis.expire now key ttl s2) /\
  sameKeys (snd (Redis.expire now key ttl s1))
           (snd (Redis.expire now key ttl s2)).
Proof.
  intros H. unfold Redis.expire. pose proof (sameKeys_lookup s1 s2 key H) as Hk.
  destruct (s1 !! key) as [e1|], (s2 !! key) as [e2|]; simpl in Hk;
    inversion Hk as [He]; [|auto].
  rewrite He. destruct (now <? expireAt e2); simpl; split; auto.
  apply sameKeys_insert; auto.
Qed.

Lemma sameKeys_del s1 s2 now key :
  sameKeys s1 s2 ->
  fst (Redis.del now key s1) = fst (Redis.del now key s2) /\
  sameKeys (snd (Redis.del now key s1)) (snd (Redis.del now key s2)).
Proof.
  intros H. unfold Redis.del. rewrite (sameKeys_live s1 s2 now key H).
  destruct (live s2 now key); simpl; split; auto.
  apply sameKeys_delete; auto.
Qed.

Lemma alike_server t w1 w2 :
  alike w1 w2 -> sameKeys (server t w1) (server t w2).
Proof. intros []. destruct t; assumption. Qed.

Lemma alike_step t s1 s2 c1 c2 w1 w2 :
  alike w1 w2 -> sameKeys s1 s2 ->
  alike (record c1 (setServer t s1 w1)) (record c2 (setServer t s2 w2)).
Proof. intros [] Hs. destruct t; constructor; simpl; assumption. Qed.

Section Alike.

Context (w1 w2 : World) (Hw : alike w1 w2).

Lemma SetNX_alike t ctx key v1 v2 ttl now net :
  fst (SetNX t ctx key v1 ttl now net w1) = fst (SetNX t ctx key v2 ttl now net w2) /\
  alike (snd (SetNX t ctx key v1 ttl now net w1))
        (snd (SetNX t ctx key v2 ttl now net w2)).
Proof.
  unfold SetNX.
  destruct (sameKeys_setnx _ _ now key v1 v2 ttl (alike_server t _ _ Hw)) as [Hf Hs].
  destruct (Redis.setnx now key v1 ttl (server t w1)) as [b1 s1'].
  destruct (Redis.setnx now key v2 ttl (server t w2)) as [b2 s2'].
  simpl in *. subst b2. split; [reflexivity|].
  apply alike_step; [assumption|].
  apply sameKeys_effect; [apply alike_server|]; assumption.
Qed.

Lemma Expire_alike t ctx key ttl now net :
  fst (Expire t ctx key ttl now net w1) = fst (Expire t ctx key ttl now net w2) /\
  alike (snd (Expire t ctx key ttl now net w1))
        (snd (Expire t ctx key ttl now net w2)).
Proof.
  unfold Expire.
  destruct (sameKeys_expire _ _ now key ttl (alike_server t _ _ Hw)) as [Hf Hs].
  destruct (Redis.expire now key ttl (server t w1)) as [b1 s1'].
  destruct (Redis.expire now key ttl (server t w2)) as [b2 s2'].
  simpl in *. subst b2. split; [reflexivity|].
  apply alike_step; [assumption|].
  apply sameKeys_effect; [apply alike_server|]; assumption.
Qed.

Lemma Del_alike t ctx key now net :
  fst (Del t ctx key now net w1) = fst (Del t ctx key now net w2) /\
  alike (snd (Del t ctx key now net w1)) (snd (Del t ctx key now net w2)).
Proof.
  unfold Del.
  destruct (sameKeys_del _ _ now key (alike_server t _ _ Hw)) as [Hf Hs].
  destruct (Redis.del now key (server t w1)) as [n1 s1'].
  destruct (Redis.del now key (server t w2)) as [n2 s2'].
  simpl in *. subst n2. split; [reflexivity|].
  apply alike_step; [assumption|].
  apply sameKeys_effect; [apply alike_server|]; assumption.
Qed.

Lemma spawnRenewal_alike key :
  alike (spawnRenewal key w1) (spawnRenewal key w2).
Proof. destruct Hw. constructor; simpl; congruence. Qed.

Lemma spawnCleanup_alike key :
  alike (spawnCleanup key w1) (spawnCleanup key w2).
Proof. destruct Hw. constructor; simpl; congruence. Qed.

Lemma refresh_alike t key now net :
  fst (refresh t key now net w1) = fst (refresh t key now net w2) /\
  alike (snd (refresh t key now net w1)) (snd (refresh t key now net w2)).
Proof.
  unfold refresh.
  destruct (Expire_alike t Background key lockTTL now (net t)) as [Hf Ha].
  destruct (Expire t Background key lockTTL now (net t) w1) as [r1 w1'].
  destruct (Expire t Background key lockTTL now (net t) w2) as [r2 w2'].
  simpl in *. subst r2. auto.
Qed.

End Alike.

Lemma onTick_alike rd key now net w1 w2 :
  alike w1 w2 ->
  fst (onTick rd key now net w1) = fst (onTick rd key now net w2) /\
  alike (snd (onTick rd key now net w1)) (snd (onTick rd key now net w2)).
Proof.
  intros Hw. unfold onTick.
  assert (Hstep : forall (on : bool) t u1 u2, alike u1 u2 ->
    fst (if on then refresh t key now net u1 else (false, u1)) =
    fst (if on then refresh t key now net u2 else (false, u2)) /\
    alike (snd (if on then refresh t key now net u1 else (false, u1)))
          (snd (if on then refresh t key now net u2 else (false, u2)))).
  { intros [] t u1 u2 Hu; [apply refresh_alike, Hu|simpl; auto]. }
  destruct (Hstep (bool_decide (is_Some (client rd))) ViaClient w1 w2 Hw) as [F1 A1].
  destruct (Hstep (bool_decide (is_Some (clusterClient rd))) ViaCluster
              (snd (if bool_decide (is_Some (client rd))
                    then refresh ViaClient key now net w1 else (false, w1)))
              (snd (if bool_decide (is_Some (client rd))
                    then refresh ViaClient key now net w2 else (false, w2)))
              A1) as [F2 A2].
  destruct (client rd) as [c|], (clusterClient rd) as [cc|]; simpl in *;
    repeat match goal with
    | |- context [refresh ?t key now net ?w] =>
        destruct (refresh t key now net w) as [[] ?]; simpl in *
    end; try discriminate; auto.
Qed.

Lemma TryLock_alike rd ctx key h1 h2 now net w1 w2 :
  alike w1 w2 ->
  fst (TryLock rd ctx key h1 now net w1) = fst (TryLock rd ctx key h2 now net w2) /\
  alike (snd (TryLock rd ctx key h1 now net w1))
        (snd (TryLock rd ctx key h2 now net w2)).
Proof.
  intros Hw. unfold TryLock.
  destruct (client rd) as [c|], (clusterClient rd) as [cc|]; [| | |auto].
  - destruct (SetNX_alike w1 w2 Hw ViaClient (boundCtx ctx now) key
                (lockerValue h1 now) (lockerValue h2 now) lockTTL now
                (net ViaClient)) as [_ A1].
    destruct (SetNX ViaClient _ _ (lockerValue h1 now) _ _ _ w1) as [r1 u1].
    destruct (SetNX ViaClient _ _ (lockerValue h2 now) _ _ _ w2) as [r2 u2].
    simpl in A1.
    destruct (SetNX_alike u1 u2 A1 ViaCluster (boundCtx ctx now) key
                (lockerValue h1 now) (lockerValue h2 now) lockTTL now
                (net ViaCluster)) as [F2 A2].
    destruct (SetNX ViaCluster _ _ (lockerValue h1 now) _ _ _ u1) as [q1 x1].
    destruct (SetNX ViaCluster _ _ (lockerValue h2 now) _ _ _ u2) as [q2 x2].
    simpl in *. subst q2.
    destruct (failed q1); [|destruct (val q1)]; simpl; auto.
    split; [reflexivity|apply spawnRenewal_alike, A2].
  - destruct (SetNX_alike w1 w2 Hw ViaClient (boundCtx ctx now) key
                (lockerValue h1 now) (lockerValue h2 now) lockTTL now
                (net ViaClient)) as [F1 A1].
    destruct (SetNX ViaClient _ _ (lockerValue h1 now) _ _ _ w1) as [r1 u1].
    destruct (SetNX ViaClient _ _ (lockerValue h2 now) _ _ _ w2) as [r2 u2].
    simpl in *. subst r2.
    destruct (failed r1); [|destruct (val r1)]; simpl; auto.
    split; [reflexivity|apply spawnRenewal_alike, A1].
  - destruct (SetNX_alike w1 w2 Hw ViaCluster (boundCtx ctx now) key
                (lockerValue h1 now) (lockerValue h2 now) lockTTL now
                (net ViaCluster)) as [F2 A2].
    destruct (SetNX ViaCluster _ _ (lockerValue h1 now) _ _ _ w1) as [q1 x1].
    destruct (SetNX ViaCluster _ _ (lockerValue h2 now) _ _ _ w2) as [q2 x2].
    simpl in *. subst q2.
    destruct (failed q1); [|destruct (val q1)]; simpl; auto.
    split; [reflexivity|apply spawnRenewal_alike, A2].
Qed.

Lemma Unlock_alike rd ctx key now net w1 w2 :
  alike w1 w2 ->
  fst (Unlock rd ctx key now net w1) = fst (Unlock rd ctx key now net w2) /\
  alike (snd (Unlock rd ctx key now net w1)) (snd (Unlock rd ctx key now net w2)).
Proof.
  intros Hw. unfold Unlock.
  destruct (client rd) as [c|], (clusterClient rd) as [cc|]; [| | |auto].
  - destruct (Del_alike w1 w2 Hw ViaClient (boundCtx ctx now) key now
                (net ViaClient)) as [F A].
    destruct (Del ViaClient _ _ _ _ w1) as [r1 u1].
    destruct (Del ViaClient _ _ _ _ w2) as [r2 u2].
    simpl in *. subst r2. auto.
  - destruct (Del_alike w1 w2 Hw ViaClient (boundCtx ctx now) key now
                (net ViaClient)) as [F A].
    destruct (Del ViaClient _ _ _ _ w1) as [r1 u1].
    destruct (Del ViaClient _ _ _ _ w2) as [r2 u2].
    simpl in *. subst r2. auto.
  - destruct (Del_alike w1 w2 Hw ViaCluster (boundCtx ctx now) key now
                (net ViaCluster)) as [F A].
    destruct (Del ViaCluster _ _ _ _ w1) as [r1 u1].
    destruct (Del ViaCluster _ _ _ _ w2) as [r2 u2].
    simpl in *. subst r2. auto.
Qed.

Lemma perform_alike rd h1 h2 o w1 w2 :
  alike w1 w2 ->
  fst (perform rd h1 o w1) = fst (perform rd h2 o w2) /\
  alike (snd (perform rd h1 o w1)) (snd (perform rd h2 o w2)).
Proof.
  intros Hw. destruct o as [ctx key now net|ctx key now net|key sel]; simpl.
  - destruct (TryLock_alike rd ctx key h1 h2 now net w1 w2 Hw) as [F A].
    destruct (TryLock rd ctx key h1 now net w1), (TryLock rd ctx key h2 now net w2).
    simpl in *. subst. auto.
  - destruct (Unlock_alike rd ctx key now net w1 w2 Hw) as [F A].
    destruct (Unlock rd ctx key now net w1), (Unlock rd ctx key now net w2).
    simpl in *. subst. auto.
  - destruct sel as [now net|]; simpl; [|auto].
    destruct (onTick_alike rd key now net w1 w2 Hw) as [F A].
    destruct (onTick rd key now net w1), (onTick rd key now net w2).
    simpl in *. subst. auto.
Qed.

Lemma run_alike rd h1 h2 ops w1 w2 :
  alike w1 w2 ->
  fst (run rd h1 ops w1) = fst (run rd h2 ops w2) /\
  alike (snd (run rd h1 ops w1)) (snd (run rd h2 ops w2)).
Proof.
  revert w1 w2. induction ops as [|o ops IH]; intros w1 w2 Hw; simpl; [auto|].
  destruct (perform_alike rd h1 h2 o w1 w2 Hw) as [F A].
  destruct (perform rd h1 o w1) as [x1 u1], (perform rd h2 o w2) as [x2 u2].
  simpl in *. subst x2.
  destruct (IH u1 u2 A) as [F' A'].
  destruct (run rd h1 ops u1) as [xs1 v1], (run rd h2 ops u2) as [xs2 v2].
  simpl in *. subst xs2. auto.
Qed.

(** C8: two worlds whose servers hold the same keys with the same
    expiry, whatever the stored values, show the same results under the
    same calls and ticks, in any number and order, even when the two
    callers write different values themselves, and stay alike; and a
    delivered [Unlock] of a visible key returns true whatever value is
    stored under it. *)
Theorem marker_never_read rd h1 h2 ops w1 w2 :
  alike w1 w2 ->
  fst (run rd h1 ops w1) = fst (run rd h2 ops w2) /\
  alike (snd (run rd h1 ops w1)) (snd (run rd h2 ops w2)) /\
  (forall t ctx key now net e,
     bound rd = Some t -> net t = Delivered ->
     server t w1 !! key = Some e -> now < expireAt e ->
     fst (Unlock rd ctx key now net w1) = true).
Proof.
  intros Hw. destruct (run_alike rd h1 h2 ops w1 w2 Hw) as [F A].
  split; [exact F|]. split; [exact A|].
  intros t ctx key now net e Hb Hnet He Hlt.
  apply (Unlock_live rd t ctx key now net w1 Hb Hnet).
  unfold live. rewrite He. apply Z.ltb_lt, Hlt.
Qed.

Lemma marker_never_read_witness :
  let ops := [ OpRenew "job" (TickerC (1 * time.Second) Sample.ok);
               OpTryLock Background "job" (2 * time.Second) Sample.ok;
               OpUnlock Background "job" (3 * time.Second) Sample.ok;
               OpRenew "job" (TickerC (4 * time.Second) Sample.ok) ] in
  alike (Sample.lockedBy Sample.host) (Sample.lockedBy Sample.other) /\
  fst (run Sample.single Sample.host ops (Sample.lockedBy Sample.host)) =
    [Renewed Continue; Locked false; Unlocked true; Renewed BreakLOOP] /\
  fst (run Sample.single Sample.host ops (Sample.lockedBy Sample.other)) =
    [Renewed Continue; Locked false; Unlocked true; Renewed BreakLOOP] /\
  fst (Unlock Sample.single Background "job" (1 * time.Second) Sample.ok
         (Sample.lockedBy Sample.other)) = true.
Proof.
  intros ops.
  assert (Hw : alike (Sample.lockedBy Sample.host) (Sample.lockedBy Sample.other)).
  { constructor; vm_compute; reflexivity. }
  destruct (marker_never_read Sample.single Sample.host Sample.host ops
              (Sample.lockedBy Sample.host) (Sample.lockedBy Sample.other) Hw)
    as (Hsame & _ & _).
  destruct (marker_never_read Sample.single Sample.host Sample.host ops
              (Sample.lockedBy Sample.other) (Sample.lockedBy Sample.host))
    as (_ & _ & Hun).
  { constructor; vm_compute; reflexivity. }
  split; [exact Hw|].
  split; [vm_compute; reflexivity|].
  split; [rewrite <- Hsame; vm_compute; reflexivity|].
  apply (Hun ViaClient Background "job" (1 * time.Second) Sample.ok
           {| value := lockerValue Sample.other 0; expireAt := 0 + lockTTL |}).
  - reflexivity.
  - reflexivity.
  - vm_compute; reflexivity.
  - vm_compute; reflexivity.
Defined.

(** ** More on the configuration *)

Lemma configure_done c p : doOnce p = true -> after (configure c p) = p.
Proof.
  intros Hd. destruct c; simpl;
    unfold SetRedisProviderStandalone, SetRedisProviderCluster,
      SetRedisProviderFailOver, Do; rewrite Hd; reflexivity.
Qed.

Lemma configure_fires c p : doOnce (after (configure c p)) = true.
Proof.
  destruct c as [opt [e|]|opt [e|]|opt [e|]]; simpl;
    unfold SetRedisProviderStandalone, SetRedisProviderCluster,
      SetRedisProviderFailOver, Do;
    destruct (doOnce p) eqn:Hd; simpl; auto.
Qed.

Lemma configured_cons c cs : configured (c :: cs) = after (configure c initial).
Proof.
  unfold configured. simpl.
  pose proof (configure_fires c initial) as Hd. revert Hd.
  generalize (after (configure c initial)). intros p Hd.
  induction cs as [|c' cs IH]; simpl; [reflexivity|].
  rewrite (configure_done c' p Hd). exact IH.
Qed.

(** X1: of any sequence of setter calls only the first one counts,
    whether it returned or panicked: the package is what that call left,
    and the once has fired. *)
Theorem first_setter_decides c cs :
  configured (c :: cs) = after (configure c initial) /\
  doOnce (configured (c :: cs)) = true /\
  forall c', after (configure c' (configured (c :: cs))) = configured (c :: cs).
Proof.
  rewrite configured_cons.
  split; [reflexivity|]. split; [apply configure_fires|].
  intros c'. apply configure_done, configure_fires.
Qed.

(** X2: when the ping of the first setter call fails, the call panics,
    and whatever setters are called afterwards both pointers stay nil:
    [TryLock] and [Unlock] return false and leave the world untouched. *)
Theorem failed_ping_is_final c cs e ctx key h now net w :
  pingOf c = Some e ->
  let rd := Wakeup (configured (c :: cs)) in
  configure c initial = Panics e {| lockDriver := lockDriver initial; doOnce := true |} /\
  client rd = None /\ clusterClient rd = None /\
  TryLock rd ctx key h now net w = (false, w) /\
  Unlock rd ctx key now net w = (false, w).
Proof.
  intros Hping rd. subst rd. rewrite configured_cons.
  destruct c as [opt ping|opt ping|opt ping]; simpl in Hping; subst ping;
    repeat split; reflexivity.
Qed.

Lemma failed_ping_is_final_witness :
  let rd := Wakeup (configured [Standalone "127.0.0.1:6379" (Some "connection refused");
                                Cluster "127.0.0.1:7000" None]) in
  pingOf (Standalone "127.0.0.1:6379" (Some "connection refused"))
    = Some "connection refused" /\
  TryLock rd Background "job" Sample.host 0 Sample.ok Sample.empty
    = (false, Sample.empty).
Proof.
  split; [reflexivity|].
  apply (failed_ping_is_final
           (Standalone "127.0.0.1:6379" (Some "connection refused"))
           [Cluster "127.0.0.1:7000" None] "connection refused"
           Background "job" Sample.host 0 Sample.ok Sample.empty).
  reflexivity.
Defined.

(** X3: when the ping of the first setter call succeeds, the driver is
    bound to the server of that setter, and to that one only, whatever
    setters are called afterwards: the standalone and the failover setter
    fill [client], the cluster setter fills [clusterClient]. *)
Theorem first_setter_binds c cs :
  pingOf c = None ->
  bound (Wakeup (configured (c :: cs))) = Some (targetOf c) /\
  clients (Wakeup (configured (c :: cs))) = 1%nat.
Proof.
  intros Hping. rewrite configured_cons.
  destruct c as [opt ping|opt ping|opt ping]; simpl in Hping; subst ping;
    split; reflexivity.
Qed.

Lemma first_setter_binds_witness :
  pingOf (FailOver "sentinel:26379" None) = None /\
  bound (Wakeup (configured [FailOver "sentinel:26379" None;
                             Cluster "127.0.0.1:7000" None;
                             Standalone "127.0.0.1:6379" None]))
    = Some ViaClient.
Proof.
  split; [reflexivity|].
  apply (first_setter_binds (FailOver "sentinel:26379" None)
           [Cluster "127.0.0.1:7000" None; Standalone "127.0.0.1:6379" None]).
  reflexivity.
Defined.

(** ** More on TryLock *)

(** What a [TryLock] that returns true leaves in the process. *)
Lemma TryLock_spawned rd ctx key h now net w w' :
  TryLock rd ctx key h now net w = (true, w') ->
  listeners w' = <[key := chans w]> (listeners w) /\
  renewals w' = <[chans w := key]> (renewals w) /\
  chans w' = S (chans w) /\
  cleanups w' = cleanups w /\ blocked w' = blocked w.
Proof.
  unfold TryLock.
  destruct (client rd) as [c|], (clusterClient rd) as [cc|]; repeat command;
    repeat match goal with
    | |- context [if ?b then _ else _] => destruct b
    end;
    intros Hret; inversion Hret; subst; simpl; repeat split; congruence.
Qed.

(** X4: a [TryLock] that returns true, on any driver, has made one
    channel, put it in the registry under the key (over whatever was
    registered there), and started one renewal goroutine for the key on
    it; it spawned no cleanup and blocked nobody. *)
Theorem TryLock_true_registers rd ctx key h now net w w' :
  TryLock rd ctx key h now net w = (true, w') ->
  listeners w' = <[key := chans w]> (listeners w) /\
  renewals w' = <[chans w := key]> (renewals w) /\
  chans w' = S (chans w) /\
  cleanups w' = cleanups w /\ blocked w' = blocked w.
Proof. exact (TryLock_spawned rd ctx key h now net w w'). Qed.

Lemma TryLock_true_registers_witness :
  TryLock Sample.single Background "job" Sample.host 0 Sample.ok Sample.empty
    = (true, Sample.held) /\
  listeners Sample.held = <["job" := 0%nat]> ∅ /\
  renewals Sample.held = <[0%nat := "job"]> ∅.
Proof.
  split; [vm_compute; reflexivity|].
  destruct (TryLock_true_registers Sample.single Background "job" Sample.host 0
              Sample.ok Sample.empty Sample.held) as (Hl & Hr & _).
  - vm_compute; reflexivity.
  - split; assumption.
Defined.

Lemma dead_not_live s now key :
  (forall e, s !! key = Some e -> expireAt e <= now) -> live s now key = false.
Proof.
  intros H. unfold live. destruct (s !! key) as [e|]; [|reflexivity].
  apply Z.ltb_ge, H. reflexivity.
Qed.

Lemma TryLock_dead rd t ctx key h now net w :
  bound rd = Some t -> net t = Delivered ->
  live (server t w) now key = false ->
  fst (TryLock rd ctx key h now net w) = true.
Proof.
  intros Hb Hnet Hdead. rewrite (TryLock_bound rd t ctx key h now net w Hb).
  unfold SetNX, Redis.setnx. rewrite Hdead, Hnet. reflexivity.
Qed.

(** X5: a record whose expiry has passed does not stand in the way: a
    delivered [TryLock] at or after that instant returns true and puts
    its own record, expiring [lockTTL] later, in its place. *)
Theorem expired_key_acquirable rd t ctx key h now net w :
  bound rd = Some t -> net t = Delivered ->
  (forall e, server t w !! key = Some e -> expireAt e <= now) ->
  fst (TryLock rd ctx key h now net w) = true /\
  server t (snd (TryLock rd ctx key h now net w)) !! key =
    Some {| value := lockerValue h now; expireAt := now + lockTTL |}.
Proof.
  intros Hb Hnet Hexp.
  pose proof (TryLock_dead rd t ctx key h now net w Hb Hnet
                (dead_not_live _ _ _ Hexp)) as Htrue.
  split; [exact Htrue|].
  destruct (TryLock_outcome rd t ctx key h now net w Hb) as [_ Hnew].
  destruct (Hnew Htrue) as [_ ->]. apply lookup_insert_eq.
Qed.

Lemma expired_key_acquirable_witness :
  bound Sample.sharded = Some ViaCluster /\
  fst (TryLock Sample.sharded Background "job" Sample.other (0 + lockTTL)
         Sample.ok
         (snd (TryLock Sample.sharded Background "job" Sample.host 0
                 Sample.ok Sample.empty))) = true.
Proof.
  split; [reflexivity|].
  apply (expired_key_acquirable Sample.sharded ViaCluster Background "job"
           Sample.other (0 + lockTTL) Sample.ok
           (snd (TryLock Sample.sharded Background "job" Sample.host 0
                   Sample.ok Sample.empty))).
  - reflexivity.
  - reflexivity.
  - intros e He.
    assert (Hs : server ViaCluster
                   (snd (TryLock Sample.sharded Background "job" Sample.host 0
                           Sample.ok Sample.empty)) !! "job" =
                 Some {| value := lockerValue Sample.host 0;
                         expireAt := 0 + lockTTL |})
      by (vm_compute; reflexivity).
    rewrite Hs in He. inversion He; subst e. simpl. reflexivity.
Defined.

(** X6: when the reply to the SETNX is lost, [TryLock] returns false
    although the record was written: no renewal goroutine is started and
    the registry is not touched, and until that record expires,
    [lockTTL] later, every [TryLock] of the key on that server returns
    false. *)
Theorem lost_reply_orphans_lease rd t ctx key h now net w :
  bound rd = Some t -> net t = ReplyLost ->
  live (server t w) now key = false ->
  let w' := snd (TryLock rd ctx key h now net w) in
  fst (TryLock rd ctx key h now net w) = false /\
  server t w' !! key =
    Some {| value := lockerValue h now; expireAt := now + lockTTL |} /\
  listeners w' = listeners w /\ renewals w' = renewals w /\
  (forall rd' ctx' h' now' net' u,
     bound rd' = Some t -> server t u = server t w' ->
     now' < now + lockTTL ->
     fst (TryLock rd' ctx' key h' now' net' u) = false).
Proof.
  intros Hb Hnet Hdead w'.
  assert (Hret : TryLock rd ctx key h now net w =
                 (false, snd (SetNX t (boundCtx ctx now) key (lockerValue h now)
                                lockTTL now (net t) w))).
  { rewrite (TryLock_bound rd t ctx key h now net w Hb).
    unfold SetNX, Redis.setnx. rewrite Hdead, Hnet. reflexivity. }
  subst w'. rewrite Hret. simpl fst. simpl snd.
  pose proof (SetNX_local t (boundCtx ctx now) key now (net t)
                (lockerValue h now) lockTTL w) as (Hl & Hr & _).
  assert (Hs : server t (snd (SetNX t (boundCtx ctx now) key (lockerValue h now)
                                lockTTL now (net t) w)) !! key =
               Some {| value := lockerValue h now; expireAt := now + lockTTL |}).
  { rewrite SetNX_server. unfold Redis.setnx. rewrite Hdead, Hnet. simpl.
    apply lookup_insert_eq. }
  split; [reflexivity|]. split; [exact Hs|].
  split; [exact Hl|]. split; [exact Hr|].
  intros rd' ctx' h' now' net' u Hb' Hu Hlt.
  destruct (TryLock_outcome rd' t ctx' key h' now' net' u Hb') as [Hheld _].
  apply Hheld. unfold live. rewrite Hu, Hs. simpl. apply Z.ltb_lt, Hlt.
Qed.

Lemma lost_reply_orphans_lease_witness :
  let lost : Target -> Net := fun _ => ReplyLost in
  let w' := snd (TryLock Sample.single Background "job" Sample.host 0 lost
                   Sample.empty) in
  bound Sample.single = Some ViaClient /\
  live (server ViaClient Sample.empty) 0 "job" = false /\
  fst (TryLock Sample.single Background "job" Sample.host 0 lost Sample.empty)
    = false /\
  renewals w' = renewals Sample.empty /\
  fst (TryLock Sample.single Background "job" Sample.other (5 * time.Second)
         Sample.ok w') = false.
Proof.
  intros lost w'. split; [reflexivity|]. split; [reflexivity|].
  destruct (lost_reply_orphans_lease Sample.single ViaClient Background "job"
              Sample.host 0 lost Sample.empty)
    as (Hf & _ & _ & Hr & Hlater); try reflexivity.
  split; [exact Hf|]. split; [exact Hr|].
  apply Hlater; [reflexivity|reflexivity|vm_compute; reflexivity].
Defined.

(** ** More on the renewal goroutine *)

(** A delivered refresh of a visible record moves its expiry to
    [now + lockTTL], keeps its value and lets the loop go on. *)
Lemma refresh_live t key now net w e :
  server t w !! key = Some e -> now < expireAt e -> net t = Delivered ->
  fst (refresh t key now net w) = false /\
  server t (snd (refresh t key now net w)) !! key =
    Some {| value := value e; expireAt := now + lockTTL |}.
Proof.
  intros He Hlt Hnet. unfold refresh.
  pose proof (Expire_server t Background key lockTTL now (net t) w) as Hs.
  unfold Expire, Redis.expire in *. rewrite He in *.
  apply Z.ltb_lt in Hlt. rewrite Hlt, Hnet in *. simpl in *.
  split; [reflexivity|]. rewrite Hs. apply lookup_insert_eq.
Qed.

(** What ticks that keep pace do to the loop and to the record. *)
Lemma renewalLoop_paced rd t key sels w e :
  bound rd = Some t ->
  server t w !! key = Some e ->
  paced t (expireAt e) sels ->
  fst (renewalLoop rd key sels w) = Continue /\
  server t (snd (renewalLoop rd key sels w)) !! key =
    Some {| value := value e; expireAt := expiryAfter (expireAt e) sels |}.
Proof.
  intros Hb. revert w e.
  induction sels as [|sel sels IH]; intros w e He Hp; simpl.
  - split; [reflexivity|]. rewrite He. destruct e; reflexivity.
  - destruct sel as [now net|]; simpl in Hp; [|contradiction].
    destruct Hp as (Hlt & Hnet & Hp). simpl.
    rewrite (onTick_bound rd t key now net w Hb).
    destruct (refresh_live t key now net w e He Hlt Hnet) as [Hf Hs].
    destruct (refresh t key now net w) as [brk w1]; simpl in *. subst brk.
    apply (IH w1 {| value := value e; expireAt := now + lockTTL |} Hs Hp).
Qed.

(** X7: on a driver bound to one server, starting from a stored record
    of the key, as long as every tick is delivered and comes before the
    expiry the previous refresh has set, the loop stays in its [select]
    and the record stays, with its value, expiring [lockTTL] after the
    last tick. *)
Theorem paced_renewal_keeps_lease rd t key sels w e :
  bound rd = Some t ->
  server t w !! key = Some e ->
  paced t (expireAt e) sels ->
  fst (renewalLoop rd key sels w) = Continue /\
  server t (snd (renewalLoop rd key sels w)) !! key =
    Some {| value := value e; expireAt := expiryAfter (expireAt e) sels |}.
Proof. exact (renewalLoop_paced rd t key sels w e). Qed.

Lemma paced_renewal_keeps_lease_witness :
  let sels := [TickerC (9 * time.Second) Sample.ok;
               TickerC (18 * time.Second) Sample.ok;
               TickerC (27 * time.Second) Sample.ok] in
  bound Sample.single = Some ViaClient /\
  paced ViaClient (0 + lockTTL) sels /\
  fst (renewalLoop Sample.single "job" sels Sample.held) = Continue /\
  live (server ViaClient (snd (renewalLoop Sample.single "job" sels Sample.held)))
       (36 * time.Second) "job" = true.
Proof.
  intros sels. split; [reflexivity|].
  assert (Hp : paced ViaClient (0 + lockTTL) sels).
  { simpl. repeat split; vm_compute; reflexivity. }
  split; [exact Hp|].
  destruct (paced_renewal_keeps_lease Sample.single ViaClient "job" sels
              Sample.held
              {| value := lockerValue Sample.host 0; expireAt := 0 + lockTTL |})
    as [Hc Hs].
  - reflexivity.
  - vm_compute; reflexivity.
  - exact Hp.
  - split; [exact Hc|]. unfold live. rewrite Hs. vm_compute. reflexivity.
Defined.

Lemma tickerC_paced t start n net :
  net t = Delivered -> paced t (start + lockTTL) (tickerC start n net).
Proof.
  intros Hnet. revert start. induction n as [|n IH]; intros start; simpl; [exact I|].
  split; [unfold renewalCheckInterval, lockTTL, time.Second, time.Nanosecond; lia|].
  split; [exact Hnet|]. apply IH.
Qed.

Lemma tickerC_expiry start n net :
  expiryAfter (start + lockTTL) (tickerC start n net) =
    start + Z.of_nat n * renewalCheckInterval + lockTTL.
Proof.
  revert start. induction n as [|n IH]; intros start; simpl expiryAfter; [lia|].
  rewrite IH. lia.
Qed.

(** X8: after a [TryLock] that returned true at [t1] on a driver bound
    to one server, the ticks of the one-second ticker, all delivered,
    keep the goroutine in its loop and the record in place: after [n] of
    them the record still carries the value written at [t1] and expires
    at [t1 + n] seconds [+ lockTTL], past the first lease. *)
Theorem ticker_keeps_lease rd t ctx key h t1 net net' n w :
  bound rd = Some t ->
  fst (TryLock rd ctx key h t1 net w) = true ->
  net' t = Delivered ->
  let w1 := snd (TryLock rd ctx key h t1 net w) in
  fst (renewalLoop rd key (tickerC t1 n net') w1) = Continue /\
  server t (snd (renewalLoop rd key (tickerC t1 n net') w1)) !! key =
    Some {| value := lockerValue h t1;
            expireAt := t1 + Z.of_nat n * (1 * time.Second) + 10 * time.Second |}.
Proof.
  intros Hb Htrue Hnet w1.
  destruct (TryLock_outcome rd t ctx key h t1 net w Hb) as [_ Hnew].
  destruct (Hnew Htrue) as [_ Hs]. fold w1 in Hs.
  assert (He : server t w1 !! key =
               Some {| value := lockerValue h t1; expireAt := t1 + lockTTL |})
    by (rewrite Hs; apply lookup_insert_eq).
  destruct (renewalLoop_paced rd t key (tickerC t1 n net') w1 _ Hb He
              (tickerC_paced t t1 n net' Hnet)) as [Hc Hrec].
  split; [exact Hc|]. rewrite Hrec. simpl value. simpl expireAt.
  rewrite tickerC_expiry. unfold renewalCheckInterval, lockTTL.
  replace (time.Second * 1) with (1 * time.Second) by lia.
  replace (time.Second * 10) with (10 * time.Second) by lia.
  reflexivity.
Qed.

Lemma ticker_keeps_lease_witness :
  let w1 := snd (TryLock Sample.single Background "job" Sample.host 0
                   Sample.ok Sample.empty) in
  bound Sample.single = Some ViaClient /\
  fst (TryLock Sample.single Background "job" Sample.host 0 Sample.ok
         Sample.empty) = true /\
  fst (renewalLoop Sample.single "job" (tickerC 0 60 Sample.ok) w1) = Continue /\
  server ViaClient (snd (renewalLoop Sample.single "job"
                           (tickerC 0 60 Sample.ok) w1)) !! "job" =
    Some {| value := lockerValue Sample.host 0;
            expireAt := 0 + Z.of_nat 60 * (1 * time.Second) + 10 * time.Second |}.
Proof.
  intros w1. split; [reflexivity|]. split; [vm_compute; reflexivity|].
  apply (ticker_keeps_lease Sample.single ViaClient Background "job" Sample.host
           0 Sample.ok Sample.ok 60 Sample.empty).
  - reflexivity.
  - vm_compute; reflexivity.
  - reflexivity.
Defined.

(** What a tick whose refresh fails leaves of the goroutine. *)
Lemma failed_tick rd t ch key now net w :
  bound rd = Some t ->
  renewals w !! ch = Some key ->
  net t <> Delivered \/ live (server t w) now key = false ->
  let w' := runRenewal rd ch [TickerC now net] w in
  renewals w' = delete ch (renewals w) /\
  listeners w' = listeners w /\
  (forall sels, runRenewal rd ch sels w' = w').
Proof.
  intros Hb Hch Hfail w'.
  assert (Hbrk : fst (refresh t key now net w) = true).
  { unfold refresh, Expire.
    destruct (Redis.expire now key lockTTL (server t w)) as [b s'] eqn:Hexp.
    simpl. destruct Hfail as [Hnet|Hdead].
    - destruct (net t); [contradiction| |]; reflexivity.
    - assert (b = false) as ->.
      { unfold Redis.expire, live in *.
        destruct (server t w !! key) as [e|].
        - rewrite Hdead in Hexp. inversion Hexp; reflexivity.
        - inversion Hexp; reflexivity. }
      destruct (net t); reflexivity. }
  assert (Hw' : w' = setRenewals (delete ch (renewals w))
                       (snd (refresh t key now net w))).
  { subst w'. unfold runRenewal. rewrite Hch. simpl.
    rewrite (onTick_bound rd t key now net w Hb).
    pose proof (Expire_local t Background key now (net t) lockTTL w) as L.
    unfold refresh in *.
    destruct (Expire t Background key lockTTL now (net t) w) as [r w1].
    simpl in *. rewrite Hbrk. destruct L as (_ & -> & _). reflexivity. }
  pose proof (Expire_local t Background key now (net t) lockTTL w) as L.
  simpl in L. destruct L as (Hl & _).
  rewrite Hw'. split; [reflexivity|]. split.
  - simpl. unfold refresh.
    destruct (Expire t Background key lockTTL now (net t) w); exact Hl.
  - intros sels. unfold runRenewal. simpl. rewrite lookup_delete_eq. reflexivity.
Qed.

(** X9: on a driver bound to one server, a tick whose refresh is not
    delivered, or finds no visible record of the key, ends the goroutine
    for good: it is no longer among the renewal goroutines, scheduling it
    again changes nothing, and the registry entry it was registered under
    is left where it was. *)
Theorem failed_tick_ends_renewal rd t ch key now net w :
  bound rd = Some t ->
  renewals w !! ch = Some key ->
  net t <> Delivered \/ live (server t w) now key = false ->
  let w' := runRenewal rd ch [TickerC now net] w in
  renewals w' = delete ch (renewals w) /\
  listeners w' = listeners w /\
  (forall sels, runRenewal rd ch sels w' = w').
Proof. exact (failed_tick rd t ch key now net w). Qed.

Lemma failed_tick_ends_renewal_witness :
  let w' := runRenewal Sample.single 0%nat [TickerC (1 * time.Second) Sample.down]
              Sample.held in
  bound Sample.single = Some ViaClient /\
  renewals Sample.held !! 0%nat = Some "job" /\
  renewals w' = delete 0%nat (renewals Sample.held) /\
  listeners w' = listeners Sample.held.
Proof.
  intros w'. split; [reflexivity|]. split; [vm_compute; reflexivity|].
  destruct (failed_tick_ends_renewal Sample.single ViaClient 0%nat "job"
              (1 * time.Second) Sample.down Sample.held) as (Hr & Hl & _).
  - reflexivity.
  - vm_compute; reflexivity.
  - left. discriminate.
  - split; assumption.
Defined.

(** ** More on Unlock *)

(** X10: on no driver at all does [Unlock] reach the goroutine written
    at its end: the registry, the renewal goroutines, the channels, the
    pending cleanups and the blocked senders are what they were before
    the call. *)
Theorem Unlock_never_cleans rd ctx key now net w :
  let w' := snd (Unlock rd ctx key now net w) in
  listeners w' = listeners w /\ renewals w' = renewals w /\
  chans w' = chans w /\ cleanups w' = cleanups w /\ blocked w' = blocked w.
Proof.
  unfold Unlock.
  destruct (client rd) as [c|], (clusterClient rd) as [cc|]; repeat command;
    simpl; auto.
Qed.

Lemma Unlock_dead rd t ctx key now net w :
  bound rd = Some t -> live (server t w) now key = false ->
  fst (Unlock rd ctx key now net w) = false.
Proof.
  intros Hb Hdead. rewrite (Unlock_bound rd t ctx key now net w Hb).
  unfold Del, Redis.del. rewrite Hdead. destruct (net t); reflexivity.
Qed.

(** What an executed [DEL] leaves of the key: nothing visible from
    [now] on. *)
Lemma Unlock_executed rd t ctx key now net w :
  bound rd = Some t -> net t <> Dropped ->
  forall e, server t (snd (Unlock rd ctx key now net w)) !! key = Some e ->
            expireAt e <= now.
Proof.
  intros Hb Hnet e. rewrite (Unlock_bound rd t ctx key now net w Hb).
  pose proof (Del_server t (boundCtx ctx now) key now (net t) w) as Hs.
  destruct (Del t (boundCtx ctx now) key now (net t) w) as [r w1]; simpl in *.
  rewrite Hs. unfold Redis.del, live.
  destruct (server t w !! key) as [e0|] eqn:He0.
  - destruct (now <? expireAt e0) eqn:Hlt; simpl.
    + destruct (net t); [|contradiction|]; simpl;
        rewrite lookup_delete_eq; discriminate.
    + assert (effect (net t) (server t w) (server t w) = server t w) as ->
        by (destruct (net t); reflexivity).
      rewrite He0. intros [= <-]. apply Z.ltb_ge, Hlt.
  - simpl.
    assert (effect (net t) (server t w) (server t w) = server t w) as ->
      by (destruct (net t); reflexivity).
    rewrite He0. discriminate.
Qed.

(** No refresh from [lo] on revives a record that is dead at [lo]. *)
Lemma expire_dead lo key s now key' :
  lo <= now ->
  (forall e, s !! key = Some e -> expireAt e <= lo) ->
  forall e, snd (Redis.expire now key' lockTTL s) !! key = Some e ->
            expireAt e <= lo.
Proof.
  intros Hlo Hdead e. unfold Redis.expire.
  destruct (s !! key') as [e0|] eqn:He0; [|apply Hdead].
  destruct (now <? expireAt e0) eqn:Hlt; simpl; [|apply Hdead].
  destruct (decide (key' = key)) as [->|Hne].
  - apply Z.ltb_lt in Hlt. specialize (Hdead e0 He0). lia.
  - rewrite lookup_insert_ne by assumption. apply Hdead.
Qed.

(** X11: on a driver bound to one server, of two [Unlock]s of a key with
    no acquisition in between, the second returns false once the first
    has reached the server, whatever the first returned and whatever the
    renewal goroutines do in between. *)
Theorem second_Unlock_false rd t ctx1 ctx2 key now1 now2 net1 net2 ticks w :
  bound rd = Some t ->
  net1 t <> Dropped ->
  now1 <= now2 ->
  Forall (fun k => now1 <= at_ k) ticks ->
  let w1 := background rd ticks (snd (Unlock rd ctx1 key now1 net1 w)) in
  fst (Unlock rd ctx2 key now2 net2 w1) = false.
Proof.
  intros Hb Hnet Hle Hticks w1.
  apply (Unlock_dead rd t ctx2 key now2 net2 w1 Hb).
  assert (Hdead : forall e, server t w1 !! key = Some e -> expireAt e <= now1).
  { subst w1.
    apply (background_keeps rd t Hb (fun now => now1 <= now)
             (fun s => forall e, s !! key = Some e -> expireAt e <= now1)).
    - intros s key' now Hlo Hq. apply expire_dead; assumption.
    - exact Hticks.
    - apply Unlock_executed; assumption. }
  apply dead_not_live. intros e He. specialize (Hdead e He). lia.
Qed.

Lemma second_Unlock_false_witness :
  let w1 := background Sample.single
              [ {| chan := 0%nat; at_ := 2 * time.Second; wire := Sample.ok |} ]
              (snd (Unlock Sample.single Background "job" (1 * time.Second)
                      Sample.ok Sample.held)) in
  bound Sample.single = Some ViaClient /\
  fst (Unlock Sample.single Background "job" (1 * time.Second) Sample.ok
         Sample.held) = true /\
  fst (Unlock Sample.single Background "job" (3 * time.Second) Sample.ok w1)
    = false.
Proof.
  intros w1. split; [reflexivity|]. split; [vm_compute; reflexivity|].
  apply (second_Unlock_false Sample.single ViaClient Background Background "job"
           (1 * time.Second) (3 * time.Second) Sample.ok Sample.ok).
  - reflexivity.
  - discriminate.
  - vm_compute; discriminate.
  - repeat constructor; simpl; vm_compute; discriminate.
Defined.

(** X12: when the reply to the DEL of a visible record is lost,
    [Unlock] returns false although the record is gone: the next
    delivered [TryLock] of the key on that server returns true. *)
Theorem Unlock_lost_reply rd t ctx key now net w :
  bound rd = Some t -> net t = ReplyLost ->
  live (server t w) now key = true ->
  let w' := snd (Unlock rd ctx key now net w) in
  fst (Unlock rd ctx key now net w) = false /\
  server t w' !! key = None /\
  (forall rd' ctx' h' now' net' u,
     bound rd' = Some t -> net' t = Delivered -> server t u = server t w' ->
     fst (TryLock rd' ctx' key h' now' net' u) = true).
Proof.
  intros Hb Hnet Hlive w'.
  assert (Hgone : server t w' !! key = None).
  { subst w'. rewrite (Unlock_bound rd t ctx key now net w Hb).
    pose proof (Del_server t (boundCtx ctx now) key now (net t) w) as Hs.
    unfold Del, Redis.del in *. rewrite Hlive, Hnet in *. simpl in *.
    rewrite Hs. apply lookup_delete_eq. }
  split; [|split; [exact Hgone|]].
  - rewrite (Unlock_bound rd t ctx key now net w Hb).
    unfold Del, Redis.del. rewrite Hlive, Hnet. reflexivity.
  - intros rd' ctx' h' now' net' u Hb' Hnet' Hu.
    apply (TryLock_absent rd' t ctx' key h' now' net' u Hb' Hnet').
    rewrite Hu. exact Hgone.
Qed.

Lemma Unlock_lost_reply_witness :
  let lost : Target -> Net := fun _ => ReplyLost in
  let w' := snd (Unlock Sample.single Background "job" (1 * time.Second) lost
                   Sample.held) in
  bound Sample.single = Some ViaClient /\
  live (server ViaClient Sample.held) (1 * time.Second) "job" = true /\
  fst (Unlock Sample.single Background "job" (1 * time.Second) lost Sample.held)
    = false /\
  fst (TryLock Sample.single Background "job" Sample.other (2 * time.Second)
         Sample.ok w') = true.
Proof.
  intros lost w'. split; [reflexivity|]. split; [vm_compute; reflexivity|].
  destruct (Unlock_lost_reply Sample.single ViaClient Background "job"
              (1 * time.Second) lost Sample.held) as (Hf & _ & Hnext).
  - reflexivity.
  - reflexivity.
  - vm_compute; reflexivity.
  - split; [exact Hf|]. apply Hnext; reflexivity.
Defined.

(** ** Other keys *)

Lemma setnx_other now key v ttl s k :
  k <> key -> snd (Redis.setnx now key v ttl s) !! k = s !! k.
Proof.
  intros Hne. unfold Redis.setnx. destruct (live s now key); simpl; [reflexivity|].
  apply lookup_insert_ne. congruence.
Qed.

Lemma expire_other now key ttl s k :
  k <> key -> snd (Redis.expire now key ttl s) !! k = s !! k.
Proof.
  intros Hne. unfold Redis.expire. destruct (s !! key) as [e|]; [|reflexivity].
  destruct (now <? expireAt e); simpl; [|reflexivity].
  apply lookup_insert_ne. congruence.
Qed.

Lemma del_other now key s k :
  k <> key -> snd (Redis.del now key s) !! k = s !! k.
Proof.
  intros Hne. unfold Redis.del. destruct (live s now key); simpl; [|reflexivity].
  apply lookup_delete_ne. congruence.
Qed.

Lemma step_other t0 net c s' w t k :
  s' !! k = server t0 w !! k ->
  server t (record c (setServer t0 (effect net (server t0 w) s') w)) !! k =
    server t w !! k.
Proof. intros Hs. destruct t, t0, net; simpl in *; auto. Qed.

Section OtherKeys.

Context (key k : string) (Hne : k <> key).

Lemma SetNX_other t0 ctx v ttl now net w t :
  server t (snd (SetNX t0 ctx key v ttl now net w)) !! k = server t w !! k.
Proof.
  unfold SetNX. pose proof (setnx_other now key v ttl (server t0 w) k Hne) as H.
  destruct (Redis.setnx now key v ttl (server t0 w)); simpl in *.
  apply step_other, H.
Qed.

Lemma Expire_other t0 ctx ttl now net w t :
  server t (snd (Expire t0 ctx key ttl now net w)) !! k = server t w !! k.
Proof.
  unfold Expire. pose proof (expire_other now key ttl (server t0 w) k Hne) as H.
  destruct (Redis.expire now key ttl (server t0 w)); simpl in *.
  apply step_other, H.
Qed.

Lemma Del_other t0 ctx now net w t :
  server t (snd (Del t0 ctx key now net w)) !! k = server t w !! k.
Proof.
  unfold Del. pose proof (del_other now key (server t0 w) k Hne) as H.
  destruct (Redis.del now key (server t0 w)); simpl in *.
  apply step_other, H.
Qed.

Lemma TryLock_other rd ctx h now net w t :
  server t (snd (TryLock rd ctx key h now net w)) !! k = server t w !! k.
Proof.
  unfold TryLock.
  destruct (client rd) as [c|], (clusterClient rd) as [cc|];
    repeat match goal with
    | |- context [SetNX ?t0 ?ctx' key ?v ?ttl now ?n ?u] =>
        let H := fresh "H" in
        pose proof (SetNX_other t0 ctx' v ttl now n u t) as H;
        destruct (SetNX t0 ctx' key v ttl now n u); simpl in H
    end;
    repeat match goal with
    | |- context [if ?b then _ else _] => destruct b
    end;
    simpl; try reflexivity;
    try (destruct t; simpl in *; congruence).
Qed.

Lemma Unlock_other rd ctx now net w t :
  server t (snd (Unlock rd ctx key now net w)) !! k = server t w !! k.
Proof.
  unfold Unlock.
  destruct (client rd) as [c|], (clusterClient rd) as [cc|];
    repeat match goal with
    | |- context [Del ?t0 ?ctx' key now ?n ?u] =>
        let H := fresh "H" in
        pose proof (Del_other t0 ctx' now n u t) as H;
        destruct (Del t0 ctx' key now n u); simpl in H
    end;
    simpl; try reflexivity; try (destruct t; simpl in *; congruence).
Qed.

Lemma onTick_other rd now net w t :
  server t (snd (onTick rd key now net w)) !! k = server t w !! k.
Proof.
  unfold onTick, refresh.
  destruct (client rd) as [c|], (clusterClient rd) as [cc|];
    repeat match goal with
    | |- context [Expire ?t0 ?ctx' key ?ttl now ?n ?u] =>
        let H := fresh "H" in
        pose proof (Expire_other t0 ctx' ttl now n u t) as H;
        destruct (Expire t0 ctx' key ttl now n u); simpl in H;
        simpl;
        match goal with
        | |- context [if ?b then _ else _] => destruct b; simpl
        end
    end;
    simpl; try reflexivity; try congruence.
Qed.

Lemma renewalLoop_other rd sels w t :
  server t (snd (renewalLoop rd key sels w)) !! k = server t w !! k.
Proof.
  revert w. induction sels as [|sel sels IH]; intros w; simpl; [reflexivity|].
  destruct sel as [now net|]; simpl; [|reflexivity].
  pose proof (onTick_other rd now net w t) as H.
  destruct (onTick rd key now net w) as [[] w1]; simpl in *; [|exact H].
  rewrite IH. exact H.
Qed.

End OtherKeys.

(** X13: locks on different keys do not touch each other: [TryLock],
    [Unlock] and the renewal loop of one key leave the record of every
    other key, on either server, exactly as it was, on any driver and
    under any network. *)
Theorem other_keys_untouched rd ctx key h now net sels w t k :
  k <> key ->
  server t (snd (TryLock rd ctx key h now net w)) !! k = server t w !! k /\
  server t (snd (Unlock rd ctx key now net w)) !! k = server t w !! k /\
  server t (snd (renewalLoop rd key sels w)) !! k = server t w !! k.
Proof.
  intros Hne. split; [|split].
  - apply TryLock_other, Hne.
  - apply Unlock_other, Hne.
  - apply renewalLoop_other, Hne.
Qed.

Lemma other_keys_untouched_witness :
  "report" <> "job" /\
  server ViaClient
    (snd (Unlock Sample.single Background "job" (1 * time.Second) Sample.ok
            (snd (TryLock Sample.single Background "report" Sample.other 0
                    Sample.ok Sample.held)))) !! "report" =
  server ViaClient
    (snd (TryLock Sample.single Background "report" Sample.other 0
            Sample.ok Sample.held)) !! "report".
Proof.
  split; [discriminate|].
  apply (other_keys_untouched Sample.single Background "job" Sample.host
           (1 * time.Second) Sample.ok []
           (snd (TryLock Sample.single Background "report" Sample.other 0
                   Sample.ok Sample.held)) ViaClient "report").
  discriminate.
Defined.

(** ** The registry over whole schedules *)

Lemma onTick_local rd key now net w :
  let w' := snd (onTick rd key now net w) in
  listeners w' = listeners w /\ renewals w' = renewals w /\
  chans w' = chans w /\ cleanups w' = cleanups w /\ blocked w' = blocked w.
Proof.
  unfold onTick, refresh.
  destruct (client rd) as [c|], (clusterClient rd) as [cc|];
    repeat match goal with
    | |- context [Expire ?t0 ?ctx' ?k ?ttl ?n ?nt ?u] =>
        let L := fresh "L" in
        pose proof (Expire_local t0 ctx' k n nt ttl u) as L;
        destruct (Expire t0 ctx' k ttl n nt u); simpl in L;
        destruct L as (? & ? & ? & ? & ?); simpl;
        match goal with
        | |- context [if ?b then _ else _] => destruct b; simpl
        end
    end;
    simpl; repeat split; congruence.
Qed.

Lemma renewalLoop_local rd key sels w :
  let w' := snd (renewalLoop rd key sels w) in
  listeners w' = listeners w /\ renewals w' = renewals w /\
  chans w' = chans w /\ cleanups w' = cleanups w /\ blocked w' = blocked w.
Proof.
  revert w. induction sels as [|sel sels IH]; intros w; simpl; [auto 6|].
  destruct sel as [now net|]; simpl; [|auto 6].
  pose proof (onTick_local rd key now net w) as L.
  destruct (onTick rd key now net w) as [[] w1]; simpl in *; [|exact L].
  specialize (IH w1). simpl in IH.
  destruct L as (? & ? & ? & ? & ?), IH as (? & ? & ? & ? & ?).
  repeat split; congruence.
Qed.

(** Scheduling a goroutine at most takes it out of [renewals]. *)
Lemma runRenewal_shape rd ch sels w :
  let w' := runRenewal rd ch sels w in
  listeners w' = listeners w /\ chans w' = chans w /\
  cleanups w' = cleanups w /\ blocked w' = blocked w /\
  (renewals w' = renewals w \/ renewals w' = delete ch (renewals w)).
Proof.
  unfold runRenewal. destruct (renewals w !! ch) as [key|]; [|simpl; auto 6].
  pose proof (renewalLoop_local rd key sels w) as L.
  destruct (renewalLoop rd key sels w) as [[] w1]; simpl in *;
    destruct L as (? & Hr & ? & ? & ?); repeat split; auto.
  right. rewrite Hr. reflexivity.
Qed.

(** [TryLock] either leaves the process as it was or starts one
    goroutine on a new channel, registered under the key. *)
Lemma TryLock_shape rd ctx key h now net w :
  let w' := snd (TryLock rd ctx key h now net w) in
  (listeners w' = listeners w /\ renewals w' = renewals w /\
   chans w' = chans w) \/
  (listeners w' = <[key := chans w]> (listeners w) /\
   renewals w' = <[chans w := key]> (renewals w) /\
   chans w' = S (chans w)).
Proof.
  destruct (TryLock rd ctx key h now net w) as [[] w'] eqn:E; simpl.
  - right. destruct (TryLock_spawned rd ctx key h now net w w' E) as (? & ? & ? & _).
    auto.
  - left. revert E. unfold TryLock.
    destruct (client rd) as [c|], (clusterClient rd) as [cc|]; repeat command;
      repeat match goal with
      | |- context [if ?b then _ else _] => destruct b
      end;
      intros Hret; inversion Hret; subst; repeat split; congruence.
Qed.

Lemma consistent_shrink w w' :
  (forall key ch, listeners w' !! key = Some ch -> listeners w !! key = Some ch) ->
  (forall ch key, renewals w' !! ch = Some key -> renewals w !! ch = Some key) ->
  chans w' = chans w ->
  consistent w -> consistent w'.
Proof.
  intros Hl Hr Hc [M1 M2 M3 M4]. constructor.
  - intros key ch H. rewrite Hc. eauto.
  - intros ch key H. rewrite Hc. eauto.
  - intros key1 key2 ch H1 H2. eauto.
  - intros key ch key' H1 H2. eauto.
Qed.

Lemma consistent_spawn key w w' :
  listeners w' = <[key := chans w]> (listeners w) ->
  renewals w' = <[chans w := key]> (renewals w) ->
  chans w' = S (chans w) ->
  consistent w -> consistent w'.
Proof.
  intros Hl Hr Hc [M1 M2 M3 M4]. constructor.
  - intros k ch. rewrite Hl, Hc. intros [[_ <-]|[_ H]]%lookup_insert_Some.
    + lia.
    + specialize (M1 k ch H). lia.
  - intros ch k. rewrite Hr, Hc. intros [[<- _]|[_ H]]%lookup_insert_Some.
    + lia.
    + specialize (M2 ch k H). lia.
  - intros k1 k2 ch. rewrite Hl.
    intros [[<- <-]|[Hn1 H1]]%lookup_insert_Some
           [[<- E]|[Hn2 H2]]%lookup_insert_Some; try reflexivity.
    + specialize (M1 k2 (chans w) H2). lia.
    + specialize (M1 k1 ch H1). lia.
    + eauto.
  - intros k ch k'. rewrite Hl, Hr.
    intros [[<- <-]|[Hn1 H1]]%lookup_insert_Some
           [[E1 E2]|[Hn2 H2]]%lookup_insert_Some; try congruence.
    + specialize (M1 k ch H1). lia.
    + eauto.
Qed.

Lemma act_consistent rd a w : consistent w -> consistent (snd (act rd a w)).
Proof.
  intros Hw. destruct a as [ctx key h now net|ctx key now net|ch now net|key]; simpl.
  - pose proof (TryLock_shape rd ctx key h now net w) as S.
    destruct (TryLock rd ctx key h now net w) as [b w']; simpl in *.
    destruct S as [(Hl & Hr & Hc)|(Hl & Hr & Hc)].
    + apply (consistent_shrink w w'); [rewrite Hl|rewrite Hr| |]; auto.
    + apply (consistent_spawn key w w'); assumption.
  - pose proof (Unlock_registry rd ctx key now net w) as S.
    destruct (Unlock rd ctx key now net w) as [b w']; simpl in *.
    destruct S as (Hl & Hr & Hc & _).
    apply (consistent_shrink w w'); [rewrite Hl|rewrite Hr| |]; auto.
  - destruct (runRenewal_shape rd ch [TickerC now net] w)
      as (Hl & Hc & _ & _ & [Hr|Hr]);
      (apply (consistent_shrink w _); [rewrite Hl; auto|rewrite Hr|assumption|assumption]).
    + auto.
    + intros c k [_ H]%lookup_delete_Some. exact H.
  - unfold cleanup. destruct (listeners w !! key) as [ch|]; [|assumption].
    apply (consistent_shrink w _); simpl; [| |reflexivity|assumption].
    + intros k c [_ H]%lookup_delete_Some. exact H.
    + intros c k [_ H]%lookup_delete_Some. exact H.
Qed.

Lemma acts_consistent rd l w : consistent w -> consistent (acts rd l w).
Proof.
  revert w. induction l as [|a l IH]; intros w Hw; simpl; [assumption|].
  apply IH, act_consistent, Hw.
Qed.

Lemma empty_consistent : consistent Sample.empty.
Proof. constructor; simpl; intros *; rewrite lookup_empty; discriminate. Qed.

(** X14: whatever callers, tickers and goroutines do, in any order and
    on any driver, starting from a process that holds nothing: every
    channel in the registry or behind a goroutine was made by a
    [TryLock], no two keys are registered with the same channel, and the
    goroutine behind a registered channel renews the key it is
    registered under. *)
Theorem registry_consistent rd l : consistent (acts rd l Sample.empty).
Proof. apply acts_consistent, empty_consistent. Qed.

(** ** Leases over whole schedules *)

Lemma setnx_bound hi now key v s :
  now <= hi -> leaseBound hi s ->
  leaseBound hi (snd (Redis.setnx now key v lockTTL s)).
Proof.
  intros Hle Hs. unfold Redis.setnx. destruct (live s now key); simpl; [assumption|].
  intros k e [[_ <-]|[_ H]]%lookup_insert_Some; [simpl; lia|eauto].
Qed.

Lemma expire_bound hi now key s :
  now <= hi -> leaseBound hi s ->
  leaseBound hi (snd (Redis.expire now key lockTTL s)).
Proof.
  intros Hle Hs. unfold Redis.expire. destruct (s !! key) as [e0|]; [|assumption].
  destruct (now <? expireAt e0); simpl; [|assumption].
  intros k e [[_ <-]|[_ H]]%lookup_insert_Some; [simpl; lia|eauto].
Qed.

Lemma del_bound hi now key s :
  leaseBound hi s -> leaseBound hi (snd (Redis.del now key s)).
Proof.
  intros Hs. unfold Redis.del. destruct (live s now key); simpl; [|assumption].
  intros k e [_ H]%lookup_delete_Some. eauto.
Qed.

Lemma step_bound hi t0 net c s' w :
  (forall t, leaseBound hi (server t w)) -> leaseBound hi s' ->
  forall t, leaseBound hi
              (server t (record c (setServer t0 (effect net (server t0 w) s') w))).
Proof.
  intros Hw Hs t. pose proof (Hw ViaClient). pose proof (Hw ViaCluster).
  destruct t, t0, net; simpl in *; assumption.
Qed.

Lemma server_spawnRenewal t key w : server t (spawnRenewal key w) = server t w.
Proof. destruct t; reflexivity. Qed.

Lemma server_setRenewals t g w : server t (setRenewals g w) = server t w.
Proof. destruct t; reflexivity. Qed.

Section LeaseBound.

Context (hi now : Z) (Hle : now <= hi).

Lemma SetNX_bound t0 ctx key v net w :
  (forall t, leaseBound hi (server t w)) ->
  forall t, leaseBound hi (server t (snd (SetNX t0 ctx key v lockTTL now net w))).
Proof.
  intros Hw. unfold SetNX.
  pose proof (setnx_bound hi now key v (server t0 w) Hle (Hw t0)) as H.
  destruct (Redis.setnx now key v lockTTL (server t0 w)); simpl in *.
  apply step_bound; assumption.
Qed.

Lemma Expire_bound t0 ctx key net w :
  (forall t, leaseBound hi (server t w)) ->
  forall t, leaseBound hi (server t (snd (Expire t0 ctx key lockTTL now net w))).
Proof.
  intros Hw. unfold Expire.
  pose proof (expire_bound hi now key (server t0 w) Hle (Hw t0)) as H.
  destruct (Redis.expire now key lockTTL (server t0 w)); simpl in *.
  apply step_bound; assumption.
Qed.

Lemma Del_bound t0 ctx key net w :
  (forall t, leaseBound hi (server t w)) ->
  forall t, leaseBound hi (server t (snd (Del t0 ctx key now net w))).
Proof.
  intros Hw. unfold Del.
  pose proof (del_bound hi now key (server t0 w) (Hw t0)) as H.
  destruct (Redis.del now key (server t0 w)); simpl in *.
  apply step_bound; assumption.
Qed.

Lemma TryLock_bound_kept rd ctx key h net w :
  (forall t, leaseBound hi (server t w)) ->
  forall t, leaseBound hi (server t (snd (TryLock rd ctx key h now net w))).
Proof.
  intros Hw. unfold TryLock.
  destruct (client rd) as [c|], (clusterClient rd) as [cc|]; [| | |exact Hw].
  - pose proof (SetNX_bound ViaClient (boundCtx ctx now) key (lockerValue h now)
                  (net ViaClient) w Hw) as H1.
    destruct (SetNX ViaClient _ _ _ _ _ _ w) as [r1 w1]; simpl in H1.
    pose proof (SetNX_bound ViaCluster (boundCtx ctx now) key (lockerValue h now)
                  (net ViaCluster) w1 H1) as H2.
    destruct (SetNX ViaCluster _ _ _ _ _ _ w1) as [r2 w2]; simpl in H2.
    destruct (failed r2); [|destruct (val r2)]; simpl; intros t;
      rewrite ?server_spawnRenewal; apply H2.
  - pose proof (SetNX_bound ViaClient (boundCtx ctx now) key (lockerValue h now)
                  (net ViaClient) w Hw) as H1.
    destruct (SetNX ViaClient _ _ _ _ _ _ w) as [r1 w1]; simpl in H1.
    destruct (failed r1); [|destruct (val r1)]; simpl; intros t;
      rewrite ?server_spawnRenewal; apply H1.
  - pose proof (SetNX_bound ViaCluster (boundCtx ctx now) key (lockerValue h now)
                  (net ViaCluster) w Hw) as H2.
    destruct (SetNX ViaCluster _ _ _ _ _ _ w) as [r2 w2]; simpl in H2.
    destruct (failed r2); [|destruct (val r2)]; simpl; intros t;
      rewrite ?server_spawnRenewal; apply H2.
Qed.

Lemma Unlock_bound_kept rd ctx key net w :
  (forall t, leaseBound hi (server t w)) ->
  forall t, leaseBound hi (server t (snd (Unlock rd ctx key now net w))).
Proof.
  intros Hw. unfold Unlock.
  destruct (client rd) as [c|], (clusterClient rd) as [cc|]; [| | |exact Hw].
  - pose proof (Del_bound ViaClient (boundCtx ctx now) key (net ViaClient) w Hw) as H1.
    destruct (Del ViaClient _ _ _ _ w) as [r1 w1]; exact H1.
  - pose proof (Del_bound ViaClient (boundCtx ctx now) key (net ViaClient) w Hw) as H1.
    destruct (Del ViaClient _ _ _ _ w) as [r1 w1]; exact H1.
  - pose proof (Del_bound ViaCluster (boundCtx ctx now) key (net ViaCluster) w Hw) as H2.
    destruct (Del ViaCluster _ _ _ _ w) as [r2 w2]; exact H2.
Qed.

Lemma onTick_bound_kept rd key net w :
  (forall t, leaseBound hi (server t w)) ->
  forall t, leaseBound hi (server t (snd (onTick rd key now net w))).
Proof.
  intros Hw. unfold onTick, refresh.
  destruct (client rd) as [c|], (clusterClient rd) as [cc|]; [| | |exact Hw].
  - pose proof (Expire_bound ViaClient Background key (net ViaClient) w Hw) as H1.
    destruct (Expire ViaClient _ _ _ _ _ w) as [r1 w1]; simpl in *.
    destruct (negb (val r1) || failed r1); simpl; [exact H1|].
    pose proof (Expire_bound ViaCluster Background key (net ViaCluster) w1 H1) as H2.
    destruct (Expire ViaCluster _ _ _ _ _ w1) as [r2 w2]; simpl in *.
    destruct (negb (val r2) || failed r2); exact H2.
  - pose proof (Expire_bound ViaClient Background key (net ViaClient) w Hw) as H1.
    destruct (Expire ViaClient _ _ _ _ _ w) as [r1 w1]; simpl in *.
    destruct (negb (val r1) || failed r1); exact H1.
  - pose proof (Expire_bound ViaCluster Background key (net ViaCluster) w Hw) as H2.
    destruct (Expire ViaCluster _ _ _ _ _ w) as [r2 w2]; simpl in *.
    destruct (negb (val r2) || failed r2); exact H2.
Qed.

Lemma runRenewal_bound_kept rd ch net w :
  (forall t, leaseBound hi (server t w)) ->
  forall t, leaseBound hi (server t (runRenewal rd ch [TickerC now net] w)).
Proof.
  intros Hw. unfold runRenewal. destruct (renewals w !! ch) as [key|]; [|exact Hw].
  simpl. pose proof (onTick_bound_kept rd key net w Hw) as H.
  destruct (onTick rd key now net w) as [[] w1]; simpl in *; intros t;
    rewrite ?server_setRenewals; apply H.
Qed.

End LeaseBound.

Lemma act_bound rd hi a w :
  notAfter hi a ->
  (forall t, leaseBound hi (server t w)) ->
  forall t, leaseBound hi (server t (snd (act rd a w))).
Proof.
  intros Ha Hw.
  destruct a as [ctx key h now net|ctx key now net|ch now net|key];
    unfold notAfter in Ha; simpl in *.
  - pose proof (TryLock_bound_kept hi now Ha rd ctx key h net w Hw) as H.
    destruct (TryLock rd ctx key h now net w); exact H.
  - pose proof (Unlock_bound_kept hi now rd ctx key net w Hw) as H.
    destruct (Unlock rd ctx key now net w); exact H.
  - apply runRenewal_bound_kept; assumption.
  - unfold cleanup. destruct (listeners w !! key); [|exact Hw].
    intros []; simpl; [apply (Hw ViaClient)|apply (Hw ViaCluster)].
Qed.

Lemma acts_bound rd hi l w :
  Forall (notAfter hi) l ->
  (forall t, leaseBound hi (server t w)) ->
  forall t, leaseBound hi (server t (acts rd l w)).
Proof.
  revert w. induction l as [|a l IH]; intros w Hl Hw; simpl; [exact Hw|].
  inversion Hl; subst. apply IH; [assumption|]. apply act_bound; assumption.
Qed.

(** X15: starting from empty servers, whatever callers and goroutines
    have done up to the instant [hi], no record outlives
    [hi + lockTTL]: from that instant on a delivered [TryLock] of any
    key, on a driver bound to one server, returns true. *)
Theorem leases_run_out rd hi l :
  Forall (notAfter hi) l ->
  (forall t k e,
     server t (acts rd l Sample.empty) !! k = Some e ->
     expireAt e <= hi + lockTTL) /\
  (forall t ctx key h now net,
     bound rd = Some t -> net t = Delivered -> hi + lockTTL <= now ->
     fst (TryLock rd ctx key h now net (acts rd l Sample.empty)) = true).
Proof.
  intros Hl.
  assert (Hb : forall t, leaseBound hi (server t (acts rd l Sample.empty))).
  { apply acts_bound; [exact Hl|].
    intros [] k e; simpl; rewrite lookup_empty; discriminate. }
  split; [intros t k e; apply Hb|].
  intros t ctx key h now net Hbound Hnet Hnow.
  apply (TryLock_dead rd t ctx key h now net _ Hbound Hnet).
  apply dead_not_live. intros e He. specialize (Hb t key e He). lia.
Qed.

Lemma leases_run_out_witness :
  let l := [ DoTryLock Background "job" Sample.host 0 Sample.ok;
             DoTick 0%nat (1 * time.Second) Sample.ok;
             DoTick 0%nat (2 * time.Second) Sample.down ] in
  Forall (notAfter (2 * time.Second)) l /\
  fst (TryLock Sample.single Background "job" Sample.other
         (2 * time.Second + lockTTL) Sample.ok
         (acts Sample.single l Sample.empty)) = true.
Proof.
  intros l.
  assert (Hl : Forall (notAfter (2 * time.Second)) l)
    by (repeat constructor; vm_compute; discriminate).
  split; [exact Hl|].
  destruct (leases_run_out Sample.single (2 * time.Second) l Hl) as [_ H].
  apply (H ViaClient); [reflexivity|reflexivity|].
  apply Z.le_refl.
Defined.

(** ** Competing acquirers *)

Section Contention.

Context (rd : redisDriver) (t : Target) (Hb : bound rd = Some t).
Context (key : string) (lo : Z).

Lemma taken_blocks a w :
  contends key a -> within lo (lo + lockTTL) a -> heldThrough key lo (server t w) ->
  fst (act rd a w) <> Some true /\ heldThrough key lo (server t (snd (act rd a w))).
Proof.
  intros Hc Hin Htaken.
  destruct a as [ctx key' h now net|ctx key' now net|ch now net|key'];
    simpl in Hc; try contradiction; unfold within in Hin; simpl in *.
  - subst key'.
    destruct (TryLock_outcome rd t ctx key h now net w Hb) as [Hheld _].
    destruct Htaken as (e & He & Hexp).
    destruct Hheld as (Hf & Hs & Hcl).
    { unfold live. rewrite He. apply Z.ltb_lt. lia. }
    destruct (TryLock rd ctx key h now net w) as [b w']; simpl in *. subst b.
    split; [discriminate|]. exists e. split; [|exact Hexp].
    destruct t; simpl in *; congruence.
  - split; [discriminate|].
    apply (runRenewal_keeps rd t Hb (fun now => lo <= now) (heldThrough key lo)).
    + intros s key' now' Hlo Hq. apply lease_kept; assumption.
    + lia.
    + exact Htaken.
Qed.

Lemma taken_no_wins l w :
  Forall (contends key) l -> Forall (within lo (lo + lockTTL)) l ->
  heldThrough key lo (server t w) -> wins rd l w = 0%nat.
Proof.
  revert w. induction l as [|a l IH]; intros w Hc Hin Htaken; simpl; [reflexivity|].
  inversion Hc; subst. inversion Hin; subst.
  destruct (taken_blocks a w) as [Hno Hnext]; try assumption.
  destruct (act rd a w) as [r w']; simpl in *.
  rewrite (IH w') by assumption.
  destruct r as [[]|]; [congruence|reflexivity|reflexivity].
Qed.

Lemma one_winner l w :
  Forall (contends key) l -> Forall (within lo (lo + lockTTL)) l ->
  (wins rd l w <= 1)%nat.
Proof.
  revert w. induction l as [|a l IH]; intros w Hc Hin; simpl; [lia|].
  inversion Hc as [|? ? Hca Hcl]; subst. inversion Hin as [|? ? Hia Hil]; subst.
  destruct (act rd a w) as [r w'] eqn:E.
  destruct r as [[]|]; [|apply (IH w'); assumption|apply (IH w'); assumption].
  rewrite (taken_no_wins l w'); [lia|assumption|assumption|].
  destruct a as [ctx key' h now net|ctx key' now net|ch now net|key'];
    simpl in Hca; try contradiction; [|simpl in E; inversion E].
  subst key'. unfold within in Hia. simpl in *.
  destruct (TryLock_outcome rd t ctx key h now net w Hb) as [_ Hnew].
  destruct (TryLock rd ctx key h now net w) as [b u]; simpl in *.
  inversion E; subst b u.
  destruct (Hnew eq_refl) as [_ Hs].
  eexists. rewrite Hs, lookup_insert_eq. split; [reflexivity|]. simpl. lia.
Qed.

End Contention.

(** X16: on drivers bound to one server, of all the [TryLock]s of one
    key made within a window shorter than [lockTTL], by whatever hosts
    and under whatever network, with renewal goroutines ticking in
    between, at most one returns true. *)
Theorem at_most_one_acquires rd t key lo l w :
  bound rd = Some t ->
  Forall (contends key) l ->
  Forall (within lo (lo + lockTTL)) l ->
  (wins rd l w <= 1)%nat.
Proof. intros Hb. apply (one_winner rd t Hb key lo). Qed.

Lemma at_most_one_acquires_witness :
  let l := [ DoTryLock Background "job" Sample.host (1 * time.Second) Sample.down;
             DoTryLock Background "job" Sample.other (2 * time.Second) Sample.ok;
             DoTick 0%nat (3 * time.Second) Sample.ok;
             DoTryLock Background "job" Sample.host (4 * time.Second) Sample.ok ] in
  bound Sample.single = Some ViaClient /\
  Forall (contends "job") l /\
  Forall (within 0 (0 + lockTTL)) l /\
  wins Sample.single l Sample.empty = 1%nat /\
  (wins Sample.single l Sample.empty <= 1)%nat.
Proof.
  intros l.
  assert (Hc : Forall (contends "job") l) by (repeat constructor).
  assert (Hin : Forall (within 0 (0 + lockTTL)) l)
    by (repeat constructor; vm_compute; discriminate).
  split; [reflexivity|]. split; [exact Hc|]. split; [exact Hin|].
  split; [vm_compute; reflexivity|].
  apply (at_most_one_acquires Sample.single ViaClient "job" 0 l Sample.empty);
    [reflexivity|exact Hc|exact Hin].
Defined.

(** ** The cleanup goroutine *)

(** X17: in every world the process can reach, the cleanup goroutine of
    one key takes that key out of the registry and leaves every other
    key registered, with its goroutine as it was. *)
Theorem cleanup_spares_other_keys rd l key key2 ch2 :
  let w := acts rd l Sample.empty in
  key2 <> key ->
  listeners w !! key2 = Some ch2 ->
  listeners (cleanup key w) !! key = None /\
  listeners (cleanup key w) !! key2 = Some ch2 /\
  renewals (cleanup key w) !! ch2 = renewals w !! ch2.
Proof.
  intros w Hne H2.
  pose proof (acts_consistent rd l Sample.empty empty_consistent) as Hw.
  fold w in Hw. unfold cleanup.
  destruct (listeners w !! key) as [ch|] eqn:Hk; simpl.
  - split; [apply lookup_delete_eq|].
    split; [rewrite lookup_delete_ne by congruence; exact H2|].
    apply lookup_delete_ne. intros ->.
    apply Hne. apply (listeners_apart w Hw key2 key ch2); assumption.
  - auto.
Qed.

Lemma cleanup_spares_other_keys_witness :
  let l := [ DoTryLock Background "job" Sample.host 0 Sample.ok;
             DoTryLock Background "report" Sample.host 0 Sample.ok ] in
  let w := acts Sample.single l Sample.empty in
  "report" <> "job" /\
  listeners w !! "report" = Some 1%nat /\
  listeners (cleanup "job" w) !! "job" = None /\
  listeners (cleanup "job" w) !! "report" = Some 1%nat /\
  renewals (cleanup "job" w) !! 1%nat = Some "report".
Proof.
  intros l w.
  assert (Hr : listeners w !! "report" = Some 1%nat) by (vm_compute; reflexivity).
  split; [discriminate|]. split; [exact Hr|].
  destruct (cleanup_spares_other_keys Sample.single l "job" "report" 1%nat)
    as (Hgone & Hkept & Hgo).
  - discriminate.
  - exact Hr.
  - split; [exact Hgone|]. split; [exact Hkept|].
    fold w in Hgo. rewrite Hgo. vm_compute. reflexivity.
Defined.

(** X18: run right after a [TryLock] that returned true, the cleanup
    goroutine of the key empties the registry entry, takes the renewal
    goroutine out of its loop without anybody left blocked, touches no
    server, and a second run of it changes nothing. *)
Theorem cleanup_cancels_running rd ctx key h now net w :
  fst (TryLock rd ctx key h now net w) = true ->
  let w1 := snd (TryLock rd ctx key h now net w) in
  let w2 := cleanup key w1 in
  listeners w2 !! key = None /\
  renewals w2 !! chans w = None /\
  blocked w2 = blocked w /\
  standalone w2 = standalone w1 /\ cluster w2 = cluster w1 /\
  cleanup key w2 = w2.
Proof.
  intros Htrue w1 w2.
  destruct (TryLock_spawned rd ctx key h now net w w1) as (Hl & Hr & _ & _ & Hbl).
  { subst w1. destruct (TryLock rd ctx key h now net w); simpl in *.
    subst. reflexivity. }
  assert (Hk : listeners w1 !! key = Some (chans w))
    by (rewrite Hl; apply lookup_insert_eq).
  assert (Hc : renewals w1 !! chans w = Some key)
    by (rewrite Hr; apply lookup_insert_eq).
  subst w2. unfold cleanup. rewrite Hk, Hc. simpl.
  rewrite !lookup_delete_eq. simpl. auto 10.
Qed.

Lemma cleanup_cancels_running_witness :
  fst (TryLock Sample.single Background "job" Sample.host 0 Sample.ok
         Sample.empty) = true /\
  listeners (cleanup "job" Sample.held) !! "job" = None /\
  renewals (cleanup "job" Sample.held) !! chans Sample.empty = None.
Proof.
  split; [vm_compute; reflexivity|].
  destruct (cleanup_cancels_running Sample.single Background "job" Sample.host 0
              Sample.ok Sample.empty) as (Hl & Hr & _).
  - vm_compute; reflexivity.
  - split; [exact Hl|exact Hr].
Defined.

(** X19: when the renewal goroutine has already left its loop on a
    failed refresh, the cleanup goroutine of the key still takes the
    channel out of the registry, but its send on that channel finds no
    receiver: the sender stays blocked. *)
Theorem cancel_after_stop_blocks rd t ctx key h now net now' net' w :
  bound rd = Some t ->
  fst (TryLock rd ctx key h now net w) = true ->
  net' t <> Delivered ->
  let w1 := snd (TryLock rd ctx key h now net w) in
  let w2 := runRenewal rd (chans w) [TickerC now' net'] w1 in
  let w3 := cleanup key w2 in
  renewals w2 !! chans w = None /\
  listeners w2 !! key = Some (chans w) /\
  listeners w3 !! key = None /\
  blocked w3 = blocked w ++ [chans w].
Proof.
  intros Hb Htrue Hnet w1 w2 w3.
  destruct (TryLock_spawned rd ctx key h now net w w1) as (Hl & Hr & _ & _ & Hbl).
  { subst w1. destruct (TryLock rd ctx key h now net w); simpl in *.
    subst. reflexivity. }
  assert (Hk : listeners w1 !! key = Some (chans w))
    by (rewrite Hl; apply lookup_insert_eq).
  assert (Hc : renewals w1 !! chans w = Some key)
    by (rewrite Hr; apply lookup_insert_eq).
  destruct (failed_tick rd t (chans w) key now' net' w1 Hb Hc (or_introl Hnet))
    as (Hr2 & Hl2 & _).
  fold w2 in Hr2, Hl2.
  destruct (runRenewal_shape rd (chans w) [TickerC now' net'] w1)
    as (_ & _ & _ & Hbl2 & _).
  fold w2 in Hbl2.
  assert (Hgone : renewals w2 !! chans w = None)
    by (rewrite Hr2; apply lookup_delete_eq).
  assert (Hk2 : listeners w2 !! key = Some (chans w)) by (rewrite Hl2; exact Hk).
  split; [exact Hgone|]. split; [exact Hk2|].
  subst w3. unfold cleanup. rewrite Hk2, Hgone. simpl.
  split; [apply lookup_delete_eq|]. congruence.
Qed.

Lemma cancel_after_stop_blocks_witness :
  let w2 := runRenewal Sample.single (chans Sample.empty)
              [TickerC (1 * time.Second) Sample.down] Sample.held in
  bound Sample.single = Some ViaClient /\
  fst (TryLock Sample.single Background "job" Sample.host 0 Sample.ok
         Sample.empty) = true /\
  blocked (cleanup "job" w2) = blocked Sample.empty ++ [chans Sample.empty].
Proof.
  intros w2. split; [reflexivity|]. split; [vm_compute; reflexivity|].
  destruct (cancel_after_stop_blocks Sample.single ViaClient Background "job"
              Sample.host 0 Sample.ok (1 * time.Second) Sample.down Sample.empty)
    as (_ & _ & _ & Hbl).
  - reflexivity.
  - vm_compute; reflexivity.
  - discriminate.
  - exact Hbl.
Defined.

(** ** Asleep *)

(** X20: whatever setters were called, [Asleep] closes the one
    connection the driver is bound to and nothing else; before any
    setter, or after a failed ping, it closes nothing. *)
Theorem Asleep_closes_bound cs :
  Asleep (configured cs) =
    match bound (Wakeup (configured cs)) with
    | Some t => [t]
    | None => []
    end /\
  (length (Asleep (configured cs)) <= 1)%nat.
Proof.
  destruct (configured_wellConfigured cs) as [_ Hone].
  unfold Asleep, bound, Wakeup.
  destruct (client (lockDriver (configured cs))),
    (clusterClient (lockDriver (configured cs)));
    destruct Hone; try discriminate; simpl; auto.
Qed.

(** ** The round trip *)

(** A tick of a running goroutine that is delivered before the record
    expires keeps the goroutine and moves the expiry. *)
Lemma runRenewal_live rd t ch key now net w e :
  bound rd = Some t ->
  renewals w !! ch = Some key ->
  server t w !! key = Some e -> now < expireAt e -> net t = Delivered ->
  let w' := runRenewal rd ch [TickerC now net] w in
  renewals w' !! ch = Some key /\
  server t w' !! key = Some {| value := value e; expireAt := now + lockTTL |}.
Proof.
  intros Hb Hch He Hlt Hnet. unfold runRenewal. rewrite Hch. simpl.
  pose proof (onTick_local rd key now net w) as L.
  rewrite (onTick_bound rd t key now net w Hb) in *.
  destruct (refresh_live t key now net w e He Hlt Hnet) as [Hf Hs].
  destruct (refresh t key now net w) as [brk w1]; simpl in *. subst brk.
  simpl in *. destruct L as (_ & Hr & _). rewrite Hr. auto.
Qed.

(** The goroutine on [ch], ticking in pace, is still there afterwards,
    and so is the record, expiring [lockTTL] after the last tick. *)
Lemma background_paced rd t ch key sels w e :
  bound rd = Some t ->
  renewals w !! ch = Some key ->
  server t w !! key = Some e ->
  paced t (expireAt e) sels ->
  renewals (background rd (ticksOn ch sels) w) !! ch = Some key /\
  server t (background rd (ticksOn ch sels) w) !! key =
    Some {| value := value e; expireAt := expiryAfter (expireAt e) sels |}.
Proof.
  intros Hb. revert w e.
  induction sels as [|sel sels IH]; intros w e Hch He Hp; simpl.
  - split; [exact Hch|]. rewrite He. destruct e; reflexivity.
  - destruct sel as [now net|]; simpl in Hp; [|contradiction].
    destruct Hp as (Hlt & Hnet & Hp).
    destruct (runRenewal_live rd t ch key now net w e Hb Hch He Hlt Hnet)
      as [Hch1 He1].
    unfold background in *. simpl.
    apply (IH _ {| value := value e; expireAt := now + lockTTL |} Hch1 He1 Hp).
Qed.

(** C3: on a driver bound to one server, after a [TryLock] of the key
    returned true, an [Unlock] delivered while the record is still
    visible returns true, and a [TryLock] delivered after it returns
    true again; renewal goroutines may tick before and after the
    release, in any number and order and under any network.  The record
    is still visible at the release throughout the first [lockTTL],
    whatever the goroutines do, and, when the goroutine of the
    acquisition ticks in pace, until [lockTTL] after its last tick,
    however long the lock has been held. *)
Theorem round_trip rd t key h h' ctx1 ctx2 ctx3 t1 t2 t3 net1 net2 net3
    ticks1 ticks2 w0 :
  bound rd = Some t ->
  fst (TryLock rd ctx1 key h t1 net1 w0) = true ->
  net2 t = Delivered ->
  net3 t = Delivered ->
  let w1 := background rd ticks1 (snd (TryLock rd ctx1 key h t1 net1 w0)) in
  let w2 := background rd ticks2 (snd (Unlock rd ctx2 key t2 net2 w1)) in
  (live (server t w1) t2 key = true ->
   fst (Unlock rd ctx2 key t2 net2 w1) = true /\
   fst (TryLock rd ctx3 key h' t3 net3 w2) = true) /\
  (Forall (fun k => t1 <= at_ k) ticks1 -> t2 < t1 + lockTTL ->
   live (server t w1) t2 key = true) /\
  (forall sels,
     ticks1 = ticksOn (chans w0) sels ->
     paced t (t1 + lockTTL) sels ->
     t2 < expiryAfter (t1 + lockTTL) sels ->
     live (server t w1) t2 key = true).
Proof.
  intros Hb Hlock Hnet2 Hnet3 w1 w2.
  destruct (TryLock_outcome rd t ctx1 key h t1 net1 w0 Hb) as [_ Hnew].
  destruct (Hnew Hlock) as [_ Hs].
  assert (He : server t (snd (TryLock rd ctx1 key h t1 net1 w0)) !! key =
               Some {| value := lockerValue h t1; expireAt := t1 + lockTTL |})
    by (rewrite Hs; apply lookup_insert_eq).
  split; [|split].
  - intros Hlive.
    destruct (Unlock_live rd t ctx2 key t2 net2 w1 Hb Hnet2 Hlive) as [Hun Hgone].
    split; [exact Hun|].
    apply (TryLock_absent rd t ctx3 key h' t3 net3 w2 Hb Hnet3).
    subst w2.
    apply (background_keeps rd t Hb (fun _ => True) (fun s => s !! key = None)).
    + intros s key' now _ Hq. apply absent_kept, Hq.
    + apply Forall_forall. intros k _. exact I.
    + exact Hgone.
  - intros Hticks Ht2.
    assert (Hlease : exists e, server t w1 !! key = Some e /\
                               t1 + lockTTL <= expireAt e).
    { subst w1.
      apply (background_keeps rd t Hb (fun now => t1 <= now)
               (fun s => exists e, s !! key = Some e /\
                                   t1 + lockTTL <= expireAt e)).
      - intros s key' now Hlo Hq. apply lease_kept; assumption.
      - exact Hticks.
      - eexists; split; [exact He|]. simpl. lia. }
    destruct Hlease as (e & He1 & Hexp). unfold live. rewrite He1.
    apply Z.ltb_lt. lia.
  - intros sels Hsels Hp Ht2.
    assert (Hch : renewals (snd (TryLock rd ctx1 key h t1 net1 w0)) !! chans w0
                  = Some key).
    { destruct (TryLock_spawned rd ctx1 key h t1 net1 w0
                  (snd (TryLock rd ctx1 key h t1 net1 w0))) as (_ & Hr & _).
      - destruct (TryLock rd ctx1 key h t1 net1 w0); simpl in *. subst. reflexivity.
      - rewrite Hr. apply lookup_insert_eq. }
    destruct (background_paced rd t (chans w0) key sels _ _ Hb Hch He Hp)
      as [_ Hrec].
    subst w1. rewrite Hsels. unfold live. rewrite Hrec. simpl.
    apply Z.ltb_lt, Ht2.
Qed.

Lemma round_trip_witness :
  let sels := tickerC 0 15 Sample.ok in
  let ticks1 := ticksOn (chans Sample.empty) sels in
  let t2 := 15 * time.Second + 500 in
  let w1 := background Sample.single ticks1
              (snd (TryLock Sample.single Background "job" Sample.host 0
                      Sample.ok Sample.empty)) in
  let w2 := background Sample.single []
              (snd (Unlock Sample.single Background "job" t2 Sample.ok w1)) in
  bound Sample.single = Some ViaClient /\
  fst (TryLock Sample.single Background "job" Sample.host 0 Sample.ok
         Sample.empty) = true /\
  0 + lockTTL < t2 /\
  paced ViaClient (0 + lockTTL) sels /\
  t2 < expiryAfter (0 + lockTTL) sels /\
  live (server ViaClient w1) t2 "job" = true /\
  fst (Unlock Sample.single Background "job" t2 Sample.ok w1) = true /\
  fst (TryLock Sample.single Background "job" Sample.other (16 * time.Second)
         Sample.ok w2) = true.
Proof.
  intros sels ticks1 t2 w1 w2.
  assert (Hlock : fst (TryLock Sample.single Background "job" Sample.host 0
                         Sample.ok Sample.empty) = true)
    by (vm_compute; reflexivity).
  assert (Hp : paced ViaClient (0 + lockTTL) sels)
    by (apply tickerC_paced; reflexivity).
  assert (Ht2 : t2 < expiryAfter (0 + lockTTL) sels)
    by (vm_compute; reflexivity).
  destruct (round_trip Sample.single ViaClient "job" Sample.host Sample.other
              Background Background Background 0 t2 (16 * time.Second)
              Sample.ok Sample.ok Sample.ok ticks1 [] Sample.empty
              eq_refl Hlock eq_refl eq_refl) as (Htrip & _ & Hpaced).
  pose proof (Hpaced sels eq_refl Hp Ht2) as Hlive.
  destruct (Htrip Hlive) as [Hun Hagain].
  split; [reflexivity|]. split; [exact Hlock|].
  split; [vm_compute; reflexivity|].
  split; [exact Hp|]. split; [exact Ht2|]. split; [exact Hlive|].
  split; [exact Hun|exact Hagain].
Defined.
